(** * Kinematic bicycle model: path tracking simulation (animate.py)

    A shallow embedding of [animate.py]: the [Simulation], [Path] and [Car]
    objects, the per-frame [Car.drive] step and the animation loop that
    repeats it.  Python floats are idealised as real numbers; the classes
    imported from [libs] and [kinematic_model] are an interface the
    simulation is parametric in, with reference implementations written
    from the specification further down. *)

From Stdlib Require Import Reals List ZArith Lia Lra String Bool.
Import ListNotations.
Local Open Scope R_scope.

(** ** Exceptions and results *)

(** The exceptions a call can raise: the three error kinds of the
    numerical core, and the built-in ones raised by unpacking and
    indexing in [animate.py] itself. *)
Inductive error : Type :=
| DegenerateInputError
| InvalidSteeringError
| EmptyPathError
| ValueError
| IndexError
| TypeError.

Inductive result (A : Type) : Type :=
| Ok (a : A)
| Raise (e : error).
Arguments Ok {A} a.
Arguments Raise {A} e.

Definition is_ok {A : Type} (r : result A) : bool :=
  match r with Ok _ => true | Raise _ => false end.

(** [math.radians] *)
Definition radians (deg : R) : R := deg * PI / 180.

(** ** List objects

    The sample arrays are Python lists: objects held by reference.  The
    path, the car and the controller hold references to the same three
    lists, so the lists live in a heap and the objects hold addresses. *)

Definition ref : Type := nat.

Definition heap : Type := list (list R).

(** The list a reference denotes. *)
Definition deref (h : heap) (r : ref) : list R := nth r h [].

(** A new list object and its address. *)
Definition alloc (h : heap) (l : list R) : heap * ref :=
  (h ++ [l], List.length h).

(** ** Objects of animate.py *)

Module Simulation.
Record t : Type := mk {
  dt : R;
  map_size_x : R;
  map_size_y : R;
  frames : nat;
  loop : bool }.
End Simulation.

(** [Simulation.__init__] *)
Definition Simulation_init : Simulation.t :=
  let fps := 50 in
  {| Simulation.dt := 1 / fps;
     Simulation.map_size_x := 70;
     Simulation.map_size_y := 40;
     Simulation.frames := 2500;
     Simulation.loop := false |}.

Module Path.
Record t : Type := mk {
  px : ref;
  py : ref;
  pyaw : ref }.
End Path.

(** The constructor arguments of [StanleyController], as [Car.__init__]
    passes them at line 72. *)
Module StanleyController.
Record t : Type := mk {
  k : R;
  ksoft : R;
  kyaw : R;
  ksteer : R;
  max_steer : R;
  wheelbase : R;
  px : ref;
  py : ref;
  pyaw : ref }.
End StanleyController.

(** The constructor arguments of [KinematicBicycleModel] (line 73). *)
Module KinematicBicycleModel.
Record t : Type := mk {
  wheelbase : R;
  max_steer : R;
  dt : R;
  c_r : R;
  c_a : R }.
End KinematicBicycleModel.

Module Car.
Record t : Type := mk {
  (* Model parameters *)
  x : R;
  y : R;
  yaw : R;
  v : R;
  delta : R;
  omega : R;
  wheelbase : R;
  max_steer : R;
  dt : R;
  c_r : R;
  c_a : R;
  (* Tracker parameters *)
  px : ref;
  py : ref;
  pyaw : ref;
  k : R;
  ksoft : R;
  kyaw : R;
  ksteer : R;
  crosstrack_error : option R;
  target_id : option nat;
  (* Description parameters *)
  overall_length : R;
  overall_width : R;
  tyre_diameter : R;
  tyre_width : R;
  axle_track : R;
  rear_overhang : R;
  colour : string;
  tracker : StanleyController.t;
  kbm : KinematicBicycleModel.t }.

(** [self.delta, self.target_id, self.crosstrack_error = ...] *)
Definition set_control (c : t) (d : R) (tid : nat) (cte : R) : t :=
  mk (x c) (y c) (yaw c) (v c) d (omega c)
     (wheelbase c) (max_steer c) (dt c) (c_r c) (c_a c)
     (px c) (py c) (pyaw c) (k c) (ksoft c) (kyaw c) (ksteer c)
     (Some cte) (Some tid)
     (overall_length c) (overall_width c) (tyre_diameter c) (tyre_width c)
     (axle_track c) (rear_overhang c) (colour c) (tracker c) (kbm c).

(** [self.x, self.y, self.yaw, self.v, _, _ = ...] *)
Definition set_pose (c : t) (x' y' yaw' v' : R) : t :=
  mk x' y' yaw' v' (delta c) (omega c)
     (wheelbase c) (max_steer c) (dt c) (c_r c) (c_a c)
     (px c) (py c) (pyaw c) (k c) (ksoft c) (kyaw c) (ksteer c)
     (crosstrack_error c) (target_id c)
     (overall_length c) (overall_width c) (tyre_diameter c) (tyre_width c)
     (axle_track c) (rear_overhang c) (colour c) (tracker c) (kbm c).
End Car.

(** [Car.__init__] *)
Definition Car_init (init_x init_y init_yaw : R) (px py pyaw : ref) (dt : R)
  : Car.t :=
  let wheelbase := 2.96 in
  let max_steer := radians 33 in
  let c_r := 0.01 in
  let c_a := 2.0 in
  let k := 8.0 in
  let ksoft := 1.0 in
  let kyaw := 0.01 in
  let ksteer := 0.0 in
  let overall_length := 4.97 in
  {| Car.x := init_x;
     Car.y := init_y;
     Car.yaw := init_yaw;
     Car.v := 0.0;
     Car.delta := 0.0;
     Car.omega := 0.0;
     Car.wheelbase := wheelbase;
     Car.max_steer := max_steer;
     Car.dt := dt;
     Car.c_r := c_r;
     Car.c_a := c_a;
     Car.px := px;
     Car.py := py;
     Car.pyaw := pyaw;
     Car.k := k;
     Car.ksoft := ksoft;
     Car.kyaw := kyaw;
     Car.ksteer := ksteer;
     Car.crosstrack_error := None;
     Car.target_id := None;
     Car.overall_length := overall_length;
     Car.overall_width := 1.964;
     Car.tyre_diameter := 0.4826;
     Car.tyre_width := 0.265;
     Car.axle_track := 1.7;
     Car.rear_overhang := 0.5 * (overall_length - wheelbase);
     Car.colour := "black";
     Car.tracker :=
       StanleyController.mk k ksoft kyaw ksteer max_steer wheelbase px py pyaw;
     Car.kbm := KinematicBicycleModel.mk wheelbase max_steer dt c_r c_a |}.

(** ** The imported classes and functions

    [animate.py] imports the controller, the vehicle model and the path
    generator; their bodies are in [libs] and [kinematic_model].  A method
    call is a function of the object's constructor arguments and the call's
    arguments, returning the tuple the call site unpacks or raising; the
    controller reads the lists its references denote. *)

Class ControlLibs : Type := {
  (** [StanleyController.stanley_control(x, y, yaw, v, delta)], unpacked at
      line 78 as (steering angle, target index, cross-track error). *)
  stanley_control :
    heap -> StanleyController.t -> R -> R -> R -> R -> R ->
    result (R * nat * R);
  (** [KinematicBicycleModel.kinematic_model(x, y, yaw, v, throttle, delta)],
      unpacked at line 79 as a 6-tuple. *)
  kinematic_model :
    KinematicBicycleModel.t -> R -> R -> R -> R -> R -> R ->
    result (R * R * R * R * R * R) }.

Class PathLib : Type := {
  (** [generate_cubic_spline(x, y, ds)], unpacked at line 33 as a 4-tuple. *)
  generate_cubic_spline :
    list R -> list R -> R -> result (list R * list R * list R * list R) }.

(** ** Reading the waypoint table: [Path.__init__] *)

(** A cell of the CSV table: text that [float] parses, with its value, or
    any other text. *)
Inductive cell : Type :=
| Number (r : R)
| Text (s : string).

Definition float (c : cell) : result R :=
  match c with
  | Number r => Ok r
  | Text _ => Raise ValueError
  end.

Fixpoint floats (cs : list cell) : result (list R) :=
  match cs with
  | [] => Ok []
  | c :: cs' =>
      match float c with
      | Raise e => Raise e
      | Ok r =>
          match floats cs' with
          | Raise e => Raise e
          | Ok rs => Ok (r :: rs)
          end
      end
  end.

Fixpoint float_columns (cols : list (list cell)) : result (list (list R)) :=
  match cols with
  | [] => Ok []
  | col :: cols' =>
      match floats col with
      | Raise e => Raise e
      | Ok rs =>
          match float_columns cols' with
          | Raise e => Raise e
          | Ok rss => Ok (rs :: rss)
          end
      end
  end.

(** The first element of every row, when no row is exhausted. *)
Fixpoint heads {A : Type} (rows : list (list A)) : option (list A) :=
  match rows with
  | [] => Some []
  | [] :: _ => None
  | (a :: _) :: rows' =>
      match heads rows' with
      | Some hs => Some (a :: hs)
      | None => None
      end
  end.

Fixpoint zip_columns {A : Type} (n : nat) (rows : list (list A))
  : list (list A) :=
  match n with
  | O => []
  | S n' =>
      match heads rows with
      | Some hs => hs :: zip_columns n' (map (@tl A) rows)
      | None => []
      end
  end.

(** [zip] over the unpacked rows: the columns of the table, as many as the
    shortest row has cells; none for an empty table. *)
Definition zip_star {A : Type} (rows : list (list A)) : list (list A) :=
  match rows with
  | [] => []
  | r :: _ => zip_columns (List.length r) rows
  end.

(** [Path.__init__], from the rows [csv.reader] returned: the path holds
    the three lists the generator made, allocated on the heap.  Opening
    and reading the file, and what that can raise, come before and are
    not part of this function. *)
Definition Path_init `{PathLib} (rows : list (list cell)) (h : heap)
  : result (Path.t * heap) :=
  let ds := 0.05 in
  match float_columns (zip_star (tl rows)) with
  | Raise e => Raise e
  | Ok [x; y] =>
      match generate_cubic_spline x y ds with
      | Raise e => Raise e
      | Ok (px, py, pyaw, _) =>
          let '(h1, rx) := alloc h px in
          let '(h2, ry) := alloc h1 py in
          let '(h3, ryaw) := alloc h2 pyaw in
          Ok (Path.mk rx ry ryaw, h3)
      end
  | Ok _ => Raise ValueError
  end.

(** ** The simulation state and its monad *)

(** What a frame does to the outside: the random draw, the two calls into
    the imported objects with their arguments and results, the print, and
    the drawing calls. *)
Inductive event : Type :=
| EvUniform (a b r : R)
| EvStanley (x y yaw v delta : R) (res : result (R * nat * R))
| EvKbm (x y yaw v throttle delta : R) (res : result (R * R * R * R * R * R))
| EvPrint (crosstrack_error : option R)
| EvCamera (x y : R)
| EvPlotCar (x y yaw delta : R)
| EvTarget (tx ty : R)
| EvLabel (frame : nat) (x y v : R).

(** The objects [main] creates and the frames share: the heap of lists, the
    car, the path, the state of the [random] module (the values its
    successive [random()] calls return) and the trace of events so far. *)
Record World : Type := mkWorld {
  store : heap;
  car : Car.t;
  path : Path.t;
  rng : nat -> R;
  log : list event }.

Definition M (A : Type) : Type := World -> result A * World.

Definition ret {A : Type} (a : A) : M A := fun w => (Ok a, w).

(** An exception leaves the objects as they were when it was raised. *)
Definition bind {A B : Type} (c : M A) (f : A -> M B) : M B :=
  fun w =>
    match c w with
    | (Ok a, w') => f a w'
    | (Raise e, w') => (Raise e, w')
    end.

Definition raise {A : Type} (e : error) : M A := fun w => (Raise e, w).

Declare Scope sim_scope.
Delimit Scope sim_scope with sim.
Notation "x <- c ;; k" := (bind c (fun x => k))
  (at level 61, c at next level, right associativity) : sim_scope.
Notation "' p <- c ;; k" := (bind c (fun x => match x with p => k end))
  (at level 61, p pattern, c at next level, right associativity) : sim_scope.
Notation "c ;; k" := (bind c (fun _ => k))
  (at level 61, right associativity) : sim_scope.
Local Open Scope sim_scope.

Definition emit (ev : event) : M unit :=
  fun w => (Ok tt, mkWorld (store w) (car w) (path w) (rng w) (log w ++ [ev])).

Definition self : M Car.t := fun w => (Ok (car w), w).

Definition the_path : M Path.t := fun w => (Ok (path w), w).

Definition the_heap : M heap := fun w => (Ok (store w), w).

Definition assign (f : Car.t -> Car.t) : M unit :=
  fun w => (Ok tt, mkWorld (store w) (f (car w)) (path w) (rng w) (log w)).

Definition lift {A : Type} (r : result A) : M A := fun w => (r, w).

(** [random.random()]: the next value of the generator. *)
Definition random : M R :=
  fun w => (Ok (rng w O),
            mkWorld (store w) (car w) (path w) (fun n => rng w (S n)) (log w)).

(** [random.uniform(a, b)] is [a + (b - a) * random()], here on real
    numbers; in floating point the sum can round to [b] itself. *)
Definition uniform (a b : R) : M R :=
  u <- random ;;
  let r := a + (b - a) * u in
  emit (EvUniform a b r) ;;
  ret r.

(** [seq[i]] for a reference to a list and a non-negative index. *)
Definition index (r : ref) (i : nat) : M R :=
  h <- the_heap ;;
  match nth_error (deref h r) i with
  | Some a => ret a
  | None => raise IndexError
  end.

Section Loop.

Context {libs : ControlLibs}.

Definition call_stanley_control (t : StanleyController.t)
    (x y yaw v delta : R) : M (R * nat * R) :=
  h <- the_heap ;;
  let res := stanley_control h t x y yaw v delta in
  emit (EvStanley x y yaw v delta res) ;;
  lift res.

Definition call_kinematic_model (m : KinematicBicycleModel.t)
    (x y yaw v throttle delta : R) : M (R * R * R * R * R * R) :=
  let res := kinematic_model m x y yaw v throttle delta in
  emit (EvKbm x y yaw v throttle delta res) ;;
  lift res.

(** [Car.drive] *)
Definition drive : M unit :=
  throttle <- uniform 150 200 ;;
  c <- self ;;
  '(d, tid, cte) <- call_stanley_control (Car.tracker c)
                      (Car.x c) (Car.y c) (Car.yaw c) (Car.v c) (Car.delta c) ;;
  assign (fun c => Car.set_control c d tid cte) ;;
  c <- self ;;
  '(x', y', yaw', v', _, _) <- call_kinematic_model (Car.kbm c)
                      (Car.x c) (Car.y c) (Car.yaw c) (Car.v c)
                      throttle (Car.delta c) ;;
  assign (fun c => Car.set_pose c x' y' yaw' v') ;;
  c <- self ;;
  emit (EvPrint (Car.crosstrack_error c)).

(** [animate]; the artists it updates are the drawing events.  The
    drawing calls are taken to return: what [animate] itself can raise
    here is what the tick raises and what reading the target raises. *)
Definition animate (frame : nat) (sim : Simulation.t) : M unit :=
  c <- self ;;
  (* Camera tracks car *)
  emit (EvCamera (Car.x c) (Car.y c)) ;;
  (* Drive and draw car *)
  drive ;;
  c <- self ;;
  emit (EvPlotCar (Car.x c) (Car.y c) (Car.yaw c) (Car.delta c)) ;;
  (* Show car's target *)
  p <- the_path ;;
  match Car.target_id c with
  | None => raise TypeError
  | Some tid =>
      tx <- index (Path.px p) tid ;;
      ty <- index (Path.py p) tid ;;
      emit (EvTarget tx ty) ;;
      emit (EvLabel frame (Car.x c) (Car.y c) (Car.v c))
  end.

(** The frames [FuncAnimation] plays: [animate] once per frame, in frame
    order, [n] frames starting at [frame]. *)
Fixpoint play (frame n : nat) (sim : Simulation.t) : M unit :=
  match n with
  | O => ret tt
  | S n' => animate frame sim ;; play (S frame) n' sim
  end.

End Loop.

(** The first three statements of [main], from the rows of the table: the
    simulation, the path and the car on its first sample. *)
Definition setup `{PathLib} (rows : list (list cell)) (rng0 : nat -> R)
  : result World :=
  let sim := Simulation_init in
  match Path_init rows [] with
  | Raise e => Raise e
  | Ok (p, h) =>
      match nth_error (deref h (Path.px p)) 0,
            nth_error (deref h (Path.py p)) 0,
            nth_error (deref h (Path.pyaw p)) 0 with
      | Some x0, Some y0, Some yaw0 =>
          Ok (mkWorld h
                (Car_init x0 y0 yaw0 (Path.px p) (Path.py p) (Path.pyaw p)
                   (Simulation.dt sim))
                p rng0 [])
      | _, _, _ => Raise IndexError
      end
  end.

(** [main], from those objects straight to the frames [FuncAnimation]
    plays; the figure, the axes and the artists built in between are
    drawing and are left out. *)
Definition main `{ControlLibs} `{PathLib} (rows : list (list cell))
    (rng0 : nat -> R) : result (result unit * World) :=
  let sim := Simulation_init in
  match setup rows rng0 with
  | Raise e => Raise e
  | Ok w => Ok (play 0 (Simulation.frames sim) sim w)
  end.

(** ** Real-number versions of the math functions the core uses *)

(** [math.atan2] *)
Definition atan2 (y x : R) : R :=
  if Rlt_dec 0 x then atan (y / x)
  else if Rlt_dec x 0 then
    if Rle_dec 0 y then atan (y / x) + PI else atan (y / x) - PI
  else if Rlt_dec 0 y then PI / 2
  else if Rlt_dec y 0 then - (PI / 2)
  else 0.

(** The angle congruent to [a] modulo a full turn in the half-open range
    from [-PI] (excluded) to [PI] (included). *)
Definition normalise_angle (a : R) : R :=
  a + 2 * PI * IZR (Int_part ((PI - a) / (2 * PI))).

(** Clamping to the interval from [lo] to [hi]. *)
Definition clamp (lo hi a : R) : R := Rmin hi (Rmax lo a).

(** Euclidean distance between two points of the plane. *)
Definition hypot (dx dy : R) : R := sqrt (dx * dx + dy * dy).

(** ** The controller and the vehicle model, from the specification *)

Module SpecControl.
Section Choices.

(** What the specification leaves open is a parameter: the yaw rate the
    damping term uses (from velocity, steering angle and wheelbase), the
    drive term [f(throttle)] of the longitudinal dynamics, and the
    numerical tolerance of the steering check. *)
Variable yaw_rate_of : R -> R -> R -> R.
Variable throttle_force : R -> R.
Variable steer_tol : R.

(** The path samples the controller scans: position and heading, from the
    three lists it holds references to. *)
Definition samples (h : heap) (t : StanleyController.t) : list (R * R * R) :=
  combine (combine (deref h (StanleyController.px t))
                   (deref h (StanleyController.py t)))
          (deref h (StanleyController.pyaw t)).

(** Modelled from the spec: the front-axle position of the absent
    [StanleyController.stanley_control], the pose projected forward by
    half the wheelbase along the current yaw. *)
Definition front_axle (t : StanleyController.t) (x y yaw : R) : R * R :=
  (x + StanleyController.wheelbase t / 2 * cos yaw,
   y + StanleyController.wheelbase t / 2 * sin yaw).

Definition distance_to (f : R * R) (s : R * R * R) : R :=
  let '(sx, sy, _) := s in hypot (fst f - sx) (snd f - sy).

(** The linear scan: [best] is the index of the nearest sample seen so
    far, [i] the index of the head of [l]; a later sample replaces the
    best one only when strictly nearer. *)
Fixpoint scan (f : R * R) (best : nat) (best_d : R) (i : nat)
    (l : list (R * R * R)) : nat :=
  match l with
  | [] => best
  | s :: l' =>
      if Rlt_dec (distance_to f s) best_d
      then scan f i (distance_to f s) (S i) l'
      else scan f best best_d (S i) l'
  end.

(** Modelled from the spec: the target search of the absent
    [stanley_control], the index of the sample minimising the Euclidean
    distance to the front axle, by a full linear scan; none on a path
    without samples. *)
Definition target_index (h : heap) (t : StanleyController.t) (f : R * R)
  : option nat :=
  match samples h t with
  | [] => None
  | s :: l => Some (scan f 0%nat (distance_to f s) 1%nat l)
  end.

(** Modelled from the spec: the cross-track error of the absent
    [stanley_control], the signed perpendicular distance from the front
    axle to the path at the nearest sample, positive to the right of the
    path direction. *)
Definition cross_track_error (f : R * R) (s : R * R * R) : R :=
  let '(sx, sy, syaw) := s in
  (fst f - sx) * sin syaw - (snd f - sy) * cos syaw.

(** Modelled from the spec: the heading error of the absent
    [stanley_control], the normalised difference between the path's yaw at
    the nearest sample and the vehicle's yaw. *)
Definition heading_error (s : R * R * R) (yaw : R) : R :=
  let '(_, _, syaw) := s in normalise_angle (syaw - yaw).

(** Modelled from the spec: the unclamped steering command of the absent
    [stanley_control]: heading error plus the softened cross-track
    correction, adjusted by the yaw-rate damping term and the
    steering-rate term, both added. *)
Definition raw_steer (t : StanleyController.t) (herr cte v delta : R) : R :=
  let crosstrack_term :=
    atan2 (StanleyController.k t * cte) (StanleyController.ksoft t + v) in
  let yaw_term :=
    StanleyController.kyaw t
    * yaw_rate_of v delta (StanleyController.wheelbase t) in
  let new_angle := herr + crosstrack_term + yaw_term in
  new_angle + StanleyController.ksteer t * (new_angle - delta).

(** Modelled from the spec: [StanleyController.stanley_control], whose
    body is in [libs]: target search, cross-track and heading errors, the
    steering law clamped to the steering bound; [EmptyPathError] on a path
    without samples. *)
Definition stanley_control (h : heap) (t : StanleyController.t)
    (x y yaw v delta : R) : result (R * nat * R) :=
  let f := front_axle t x y yaw in
  match target_index h t f with
  | None => Raise EmptyPathError
  | Some i =>
      let s := nth i (samples h t) (0, 0, 0) in
      let cte := cross_track_error f s in
      let herr := heading_error s yaw in
      Ok (clamp (- StanleyController.max_steer t)
                (StanleyController.max_steer t)
                (raw_steer t herr cte v delta),
          i, cte)
  end.

(** Modelled from the spec: [KinematicBicycleModel.kinematic_model], whose
    body is in [kinematic_model]: the steering check, explicit Euler
    integration of velocity under the drive term, rolling resistance and
    sign-consistent aerodynamic drag, then of heading and position.  The
    result is the 6-tuple line 79 unpacks: the new pose and velocity, the
    steering angle as received, and the yaw rate. *)
Definition kinematic_model (m : KinematicBicycleModel.t)
    (x y yaw v throttle delta : R) : result (R * R * R * R * R * R) :=
  if Rlt_dec (KinematicBicycleModel.max_steer m + steer_tol) (Rabs delta)
  then Raise InvalidSteeringError
  else
    let dt := KinematicBicycleModel.dt m in
    let accel :=
      throttle_force throttle
      - KinematicBicycleModel.c_r m * v
      - KinematicBicycleModel.c_a m * (v * Rabs v) in
    let v' := v + accel * dt in
    let yaw_rate := v / KinematicBicycleModel.wheelbase m * tan delta in
    let yaw' := normalise_angle (yaw + yaw_rate * dt) in
    let x' := x + v * cos yaw * dt in
    let y' := y + v * sin yaw * dt in
    Ok (x', y', yaw', v', delta, yaw_rate).

Definition libs : ControlLibs :=
  Build_ControlLibs stanley_control kinematic_model.

End Choices.

(** The instance the examples run: the kinematic yaw rate in the damping
    term, the throttle itself as drive term, no tolerance. *)
Definition plain : ControlLibs :=
  libs (fun v delta wheelbase => v / wheelbase * tan delta) (fun u => u) 0.

End SpecControl.

(** ** The path generator, from the specification *)

Module SpecPath.

(** A fitted interpolant: its value and its first two derivatives as
    functions of the chord-length parameter. *)
Record Spline : Type := mkSpline {
  value : R -> R;
  d1 : R -> R;
  d2 : R -> R }.

Definition point_eq_dec (p q : R * R) : {p = q} + {p <> q}.
Proof. decide equality; apply Req_dec_T. Defined.

(** The waypoints without repetitions. *)
Definition distinct_points (pts : list (R * R)) : list (R * R) :=
  nodup point_eq_dec pts.

(** The chords: distances between consecutive waypoints. *)
Fixpoint chord_lengths (pts : list (R * R)) : list R :=
  match pts with
  | [] => []
  | p :: rest =>
      match rest with
      | [] => []
      | q :: _ => hypot (fst q - fst p) (snd q - snd p) :: chord_lengths rest
      end
  end.

Definition total_chord_length (pts : list (R * R)) : R :=
  fold_right Rplus 0 (chord_lengths pts).

Fixpoint cumulative (acc : R) (ds : list R) : list R :=
  match ds with
  | [] => []
  | d :: ds' => (acc + d) :: cumulative (acc + d) ds'
  end.

(** The spline knots: the cumulative chord length at each waypoint. *)
Definition knots (pts : list (R * R)) : list R :=
  0 :: cumulative 0 (chord_lengths pts).

(** The sampling loop: starting at [s], emit [s] and step by [ds] while
    [s] has not passed [total]. *)
Fixpoint arc_scan (fuel : nat) (s total ds : R) : list R :=
  match fuel with
  | O => []
  | S fuel' =>
      if Rle_dec s total
      then s :: arc_scan fuel' (s + ds) total ds
      else []
  end.

(** The least integer above the number of steps that fit. *)
Definition sample_count (total ds : R) : nat := Z.to_nat (up (total / ds)).

(** Steps enough for the loop to end by its own test. *)
Definition arc_fuel (total ds : R) : nat := S (sample_count total ds).

(** Modelled from the spec: the sampling grid of the absent
    [generate_cubic_spline], the fixed-step sequence of arc-length values
    from 0 to the total chord length, the end value included when the
    steps reach it. *)
Definition arc_samples (total ds : R) : list R :=
  arc_scan (arc_fuel total ds) 0 total ds.

Section Choices.

(** The specification allows natural or not-a-knot boundary conditions:
    the fit of a cubic spline through values at knots is a parameter. *)
Variable fit : list R -> list R -> Spline.

(** Modelled from the spec: [generate_cubic_spline], whose body is in
    [libs]: splines for x and y over the cumulative chord length,
    evaluated on the sampling grid, with yaw and curvature from the
    derivatives; [DegenerateInputError] on fewer than 2 distinct
    waypoints or a zero total chord length. *)
Definition generate_cubic_spline (x y : list R) (ds : R)
  : result (list R * list R * list R * list R) :=
  let pts := combine x y in
  let total := total_chord_length pts in
  if (List.length (distinct_points pts) <? 2)%nat
  then Raise DegenerateInputError
  else if Req_dec_T total 0
  then Raise DegenerateInputError
  else
    let sx := fit (knots pts) x in
    let sy := fit (knots pts) y in
    let grid := arc_samples total ds in
    let yaw := fun s => atan2 (d1 sy s) (d1 sx s) in
    let curvature := fun s =>
      let q := d1 sx s * d1 sx s + d1 sy s * d1 sy s in
      (d1 sx s * d2 sy s - d1 sy s * d2 sx s) / (q * sqrt q) in
    Ok (map (value sx) grid, map (value sy) grid,
        map yaw grid, map curvature grid).

Definition lib : PathLib := Build_PathLib generate_cubic_spline.

End Choices.

End SpecPath.

(** ** Observations on a run *)

(** The world a computation leaves, and the events it added to a trace
    that had [before] events. *)
Definition after {A : Type} (c : M A) (w : World) : World := snd (c w).

Definition outcome {A : Type} (c : M A) (w : World) : result A := fst (c w).

Definition emitted {A : Type} (c : M A) (w : World) : list event :=
  skipn (List.length (log w)) (log (after c w)).

(** What a tick hands to the host: the new pose and velocity, the steering
    command, the target index and the cross-track error. *)
Definition outputs (w : World)
  : R * R * R * R * R * option nat * option R :=
  let c := car w in
  (Car.x c, Car.y c, Car.yaw c, Car.v c, Car.delta c,
   Car.target_id c, Car.crosstrack_error c).

(** The controller's part of the outputs. *)
Definition control_outputs (w : World) : R * option nat * option R :=
  let c := car w in
  (Car.delta c, Car.target_id c, Car.crosstrack_error c).

(** The calls into the controller and the model, in trace order. *)
Definition is_call (ev : event) : bool :=
  match ev with
  | EvStanley _ _ _ _ _ _ => true
  | EvKbm _ _ _ _ _ _ _ => true
  | _ => false
  end.

Definition calls (l : list event) : list event := filter is_call l.

(** A sequence of calls made of whole ticks: a controller call that
    returned, then a model call that received the steering command the
    controller returned. *)
Fixpoint whole_ticks (l : list event) : Prop :=
  match l with
  | [] => True
  | EvStanley _ _ _ _ _ (Ok (d, _, _)) :: rest =>
      match rest with
      | EvKbm _ _ _ _ _ d' _ :: l' => d' = d /\ whole_ticks l'
      | _ => False
      end
  | _ => False
  end.

(** Whole ticks, the last one possibly cut short by the controller
    raising. *)
Fixpoint in_order (l : list event) : Prop :=
  match l with
  | [] => True
  | EvStanley _ _ _ _ _ (Ok (d, _, _)) :: rest =>
      match rest with
      | EvKbm _ _ _ _ _ d' _ :: l' => d' = d /\ in_order l'
      | _ => False
      end
  | EvStanley _ _ _ _ _ (Raise _) :: rest => rest = []
  | _ => False
  end.

(** The throttle values the model received and the values drawn from the
    random generator, in trace order. *)
Fixpoint throttles (l : list event) : list R :=
  match l with
  | [] => []
  | EvKbm _ _ _ _ throttle _ _ :: l' => throttle :: throttles l'
  | _ :: l' => throttles l'
  end.

Fixpoint draws (l : list event) : list R :=
  match l with
  | [] => []
  | EvUniform _ _ r :: l' => r :: draws l'
  | _ :: l' => draws l'
  end.

(** A world whose generator returns [u] at every call. *)
Definition constant_rng (u : R) : nat -> R := fun _ => u.

(** A one-sample path at the origin, the three lists it is made of, and
    the car [main] would put on it. *)
Definition origin_heap : heap := [[0]; [0]; [0]].

Definition origin_path : Path.t := Path.mk 0%nat 1%nat 2%nat.

Definition origin_world (u : R) : World :=
  mkWorld origin_heap
          (Car_init 0 0 0 0%nat 1%nat 2%nat (Simulation.dt Simulation_init))
          origin_path (constant_rng u) [].

(** The origin world with the same next draw, but another trace so far and
    other draws after it. *)
Definition origin_world_later (u : R) : World :=
  mkWorld origin_heap
          (Car_init 0 0 0 0%nat 1%nat 2%nat (Simulation.dt Simulation_init))
          origin_path
          (fun n => match n with O => u | S _ => 0 end)
          [EvPrint None].

(** The throttle a tick started in [w] draws. *)
Definition drawn (w : World) : R := 150 + (200 - 150) * rng w O.

(** The fields of the car that [Car.drive] does not assign. *)
Definition constants (c : Car.t) :=
  (Car.omega c, Car.wheelbase c, Car.max_steer c, Car.dt c, Car.c_r c,
   Car.c_a c, Car.px c, Car.py c, Car.pyaw c, Car.k c, Car.ksoft c,
   Car.kyaw c, Car.ksteer c, Car.overall_length c, Car.overall_width c,
   Car.tyre_diameter c, Car.tyre_width c, Car.axle_track c,
   Car.rear_overhang c, Car.colour c, Car.tracker c, Car.kbm c).

(** The calls a tick started in [w] makes: the controller on the car's
    state, then, when it returned, the model on the same pose with the
    drawn throttle and the steering command just returned. *)
Definition tick_calls `{ControlLibs} (w : World) : list event :=
  let c := car w in
  let rs := stanley_control (store w) (Car.tracker c) (Car.x c) (Car.y c)
              (Car.yaw c) (Car.v c) (Car.delta c) in
  EvStanley (Car.x c) (Car.y c) (Car.yaw c) (Car.v c) (Car.delta c) rs ::
  match rs with
  | Ok (d, _, _) =>
      [EvKbm (Car.x c) (Car.y c) (Car.yaw c) (Car.v c) (drawn w) d
         (kinematic_model (Car.kbm c) (Car.x c) (Car.y c) (Car.yaw c)
            (Car.v c) (drawn w) d)]
  | Raise _ => []
  end.

(** The same libraries, with the last two outputs of the model (steering
    angle and yaw rate) replaced by [g] of them. *)
Definition replace_tail (l : ControlLibs) (g : R -> R -> R * R) : ControlLibs :=
  Build_ControlLibs
    (@stanley_control l)
    (fun m x y yaw v throttle delta =>
       match @kinematic_model l m x y yaw v throttle delta with
       | Ok (x', y', yaw', v', d, om) =>
           Ok (x', y', yaw', v', fst (g d om), snd (g d om))
       | Raise e => Raise e
       end).

(** Two worlds holding the same objects: only their traces may differ. *)
Definition same_state (w1 w2 : World) : Prop :=
  store w1 = store w2 /\ car w1 = car w2 /\ path w1 = path w2
  /\ rng w1 = rng w2.

(** How a frame ends, from how its tick ended and the car it left. *)
Definition frame_outcome (tick : result unit) (c : Car.t) (h : heap)
    (p : Path.t) : result unit :=
  match tick with
  | Raise e => Raise e
  | Ok _ =>
      match Car.target_id c with
      | None => Raise TypeError
      | Some tid =>
                    match nth_error (deref h (Path.px p)) tid,
                nth_error (deref h (Path.py p)) tid with
          | Some _, Some _ => Ok tt
          | _, _ => Raise IndexError
          end
      end
  end.

(** The stored steering angle is within the bound the controller was
    built with. *)
Definition steer_bounded (c : Car.t) : Prop :=
  0 <= StanleyController.max_steer (Car.tracker c)
  /\ StanleyController.max_steer (Car.tracker c) = Car.max_steer c
  /\ Rabs (Car.delta c) <= Car.max_steer c.

(** Libraries whose controller returns commands within its bound. *)
Definition clamps (l : ControlLibs) : Prop :=
  forall (h : heap) (t : StanleyController.t) (x y yaw v delta : R),
    0 <= StanleyController.max_steer t ->
    match @stanley_control l h t x y yaw v delta with
    | Ok (d, _, _) => Rabs d <= StanleyController.max_steer t
    | Raise _ => True
    end.

(** The steering law in the specification's words, as relations on real
    numbers that do not go through the functions the controller is written
    with. *)

(** [d] is [a] clamped to the interval from [- m] to [m]: [a] itself when
    it is inside, the nearer end of the interval when it is not. *)
Definition limited_to (m a d : R) : Prop :=
  (a < - m -> d = - m) /\ (- m <= a <= m -> d = a) /\ (m < a -> d = m).

(** [e] is the difference [a - b] normalised to the range from [-PI]
    (excluded) to [PI] (included): it differs from [a - b] by whole
    turns. *)
Definition normalised_difference (a b e : R) : Prop :=
  - PI < e <= PI /\ exists k : Z, e = a - b + 2 * PI * IZR k.

(** [phi] is the angle [math.atan2(y, x)] returns: the direction of the
    point [(x, y)] seen from the origin, in the range from [-PI] (excluded)
    to [PI] (included), and 0 at the origin itself. *)
Definition polar_angle (y x phi : R) : Prop :=
  - PI < phi <= PI
  /\ sqrt (x * x + y * y) * cos phi = x
  /\ sqrt (x * x + y * y) * sin phi = y
  /\ (x = 0 -> y = 0 -> phi = 0).

(** The natural cubic spline through two values at the knots 0 and 1: the
    straight line between them. *)
Definition line_fit (knots values : list R) : SpecPath.Spline :=
  let a := nth 0 values 0 in
  let b := nth 1 values 0 in
  SpecPath.mkSpline (fun s => a + (b - a) * s) (fun _ => b - a) (fun _ => 0).

(** ** Observations on the drawing and on the table *)

(** Where the camera was centred and where the car was drawn, in trace
    order. *)
Fixpoint cameras (l : list event) : list (R * R) :=
  match l with
  | [] => []
  | EvCamera x y :: l' => (x, y) :: cameras l'
  | _ :: l' => cameras l'
  end.

Fixpoint plots (l : list event) : list (R * R) :=
  match l with
  | [] => []
  | EvPlotCar x y _ _ :: l' => (x, y) :: plots l'
  | _ :: l' => plots l'
  end.

(** The position of the car. *)
Definition position (c : Car.t) : R * R := (Car.x c, Car.y c).

(** A data row of the waypoint table holding one point, and one holding a
    point followed by further cells. *)
Definition row_of (p : R * R) : list cell := [Number (fst p); Number (snd p)].

Definition row_with (p : R * R * list cell) : list cell :=
  Number (fst (fst p)) :: Number (snd (fst p)) :: snd p.

Definition has_extra (p : R * R * list cell) : bool :=
  match snd p with
  | [] => false
  | _ :: _ => true
  end.

(** What [Path.__init__] does with the generator's answer. *)
Definition store_path (h : heap)
    (r : result (list R * list R * list R * list R))
  : result (Path.t * heap) :=
  match r with
  | Raise e => Raise e
  | Ok (px, py, pyaw, _) =>
      Ok (Path.mk (List.length h) (S (List.length h)) (S (S (List.length h))),
          h ++ [px; py; pyaw])
  end.

(** The car's own parameter fields and the copies its controller and its
    model were built with agree. *)
Definition in_sync (c : Car.t) : Prop :=
  Car.tracker c
  = StanleyController.mk (Car.k c) (Car.ksoft c) (Car.kyaw c) (Car.ksteer c)
      (Car.max_steer c) (Car.wheelbase c) (Car.px c) (Car.py c) (Car.pyaw c)
  /\ Car.kbm c
     = KinematicBicycleModel.mk (Car.wheelbase c) (Car.max_steer c) (Car.dt c)
         (Car.c_r c) (Car.c_a c).

(** A world whose heap holds no list: the controller has no sample. *)
Definition empty_world (u : R) : World :=
  mkWorld []
          (Car_init 0 0 0 0%nat 1%nat 2%nat (Simulation.dt Simulation_init))
          origin_path (constant_rng u) [].

(** Stand-ins for the imported classes: a controller that always steers
    straight at sample 0, with a model that rejects every command. *)
Definition rejecting_libs : ControlLibs :=
  Build_ControlLibs
    (fun _ _ _ _ _ _ _ => Ok (0, 0%nat, 0))
    (fun _ _ _ _ _ _ _ => Raise InvalidSteeringError).

(** The car with its own parameter fields replaced, its controller and its
    model left as they were built: what assigning to [car.k] and the like
    after construction gives. *)
Definition retuned (c : Car.t)
    (wheelbase max_steer dt c_r c_a k ksoft kyaw ksteer : R) : Car.t :=
  Car.mk (Car.x c) (Car.y c) (Car.yaw c) (Car.v c) (Car.delta c)
    (Car.omega c) wheelbase max_steer dt c_r c_a
    (Car.px c) (Car.py c) (Car.pyaw c) k ksoft kyaw ksteer
    (Car.crosstrack_error c) (Car.target_id c)
    (Car.overall_length c) (Car.overall_width c) (Car.tyre_diameter c)
    (Car.tyre_width c) (Car.axle_track c) (Car.rear_overhang c)
    (Car.colour c) (Car.tracker c) (Car.kbm c).

(** What a tick reads of the car: the pose, the velocity, the steering
    angle, the controller and the model. *)
Definition drive_inputs (c : Car.t) :=
  (Car.x c, Car.y c, Car.yaw c, Car.v c, Car.delta c,
   Car.tracker c, Car.kbm c).

(** The world with the car's own parameter fields replaced. *)
Definition retune (w : World)
    (wheelbase max_steer dt c_r c_a k ksoft kyaw ksteer : R) : World :=
  mkWorld (store w)
          (retuned (car w) wheelbase max_steer dt c_r c_a k ksoft kyaw ksteer)
          (path w) (rng w) (log w).

(** What a frame draws once its tick is over: the car, the target and the
    label. *)
Definition is_drawing (ev : event) : bool :=
  match ev with
  | EvPlotCar _ _ _ _ => true
  | EvTarget _ _ => true
  | EvLabel _ _ _ _ => true
  | _ => false
  end.

Definition drawings (l : list event) : list event := filter is_drawing l.

(** A world on the one-sample path, whose car still has the controller and
    the model [Car.__init__] built. *)
Definition on_origin_path (w : World) : Prop :=
  store w = origin_heap
  /\ path w = origin_path
  /\ Car.tracker (car w) = Car.tracker (car (origin_world 0))
  /\ Car.kbm (car w) = Car.kbm (car (origin_world 0)).

(** * Properties *)

(** ** One tick, unfolded *)

Section DriveFacts.

Context {libs : ControlLibs}.

Lemma drive_eq (w : World) :
  drive w =
  let c := car w in
  let thr := drawn w in
  let rs := stanley_control (store w) (Car.tracker c) (Car.x c) (Car.y c)
              (Car.yaw c) (Car.v c) (Car.delta c) in
  let rng' := fun n => rng w (S n) in
  let l1 := (log w ++ [EvUniform 150 200 thr])
            ++ [EvStanley (Car.x c) (Car.y c) (Car.yaw c) (Car.v c)
                  (Car.delta c) rs] in
  match rs with
  | Raise e => (Raise e, mkWorld (store w) c (path w) rng' l1)
  | Ok (d, tid, cte) =>
      let c1 := Car.set_control c d tid cte in
      let rk := kinematic_model (Car.kbm c) (Car.x c) (Car.y c) (Car.yaw c)
                  (Car.v c) thr d in
      let l2 := l1 ++ [EvKbm (Car.x c) (Car.y c) (Car.yaw c) (Car.v c)
                         thr d rk] in
      match rk with
      | Raise e => (Raise e, mkWorld (store w) c1 (path w) rng' l2)
      | Ok (x', y', yaw', v', _, _) =>
          (Ok tt, mkWorld (store w) (Car.set_pose c1 x' y' yaw' v') (path w)
                    rng'
                    (l2 ++ [EvPrint (Some cte)]))
      end
  end.
Proof.
  unfold drive, bind, uniform, random, emit, self, call_stanley_control,
    call_kinematic_model, the_heap, lift, assign, ret, drawn; simpl.
  destruct (stanley_control _ _ _ _ _ _ _) as [[[d tid] cte]|e]; simpl;
    [|reflexivity].
  destruct (kinematic_model _ _ _ _ _ _ _)
    as [[[[[[x' y'] yaw'] v'] d'] om']|e]; simpl; reflexivity.
Qed.

(** The events a computation added, read off an equation for its log. *)
Lemma emitted_of_log {A : Type} (c : M A) (w : World) (new : list event) :
  log (after c w) = log w ++ new -> emitted c w = new.
Proof.
  intros E. unfold emitted. rewrite E.
  rewrite skipn_app, skipn_all, Nat.sub_diag. reflexivity.
Qed.

Lemma drive_log (w : World) :
  exists new, log (after drive w) = log w ++ new
              /\ calls new = tick_calls w
              /\ draws new = [drawn w]
              /\ throttles new = throttles (tick_calls w).
Proof.
  unfold after, tick_calls. rewrite drive_eq. cbv zeta.
  destruct (stanley_control _ _ _ _ _ _ _) as [[[d tid] cte]|e]; simpl.
  - destruct (kinematic_model _ _ _ _ _ _ _)
      as [[[[[[x' y'] yaw'] v'] d'] om']|e]; simpl;
      repeat rewrite <- app_assoc; simpl;
      eexists; (split; [reflexivity|]); simpl; auto.
  - repeat rewrite <- app_assoc; simpl.
    eexists; (split; [reflexivity|]); simpl; auto.
Qed.

Lemma drive_frame (w : World) :
  store (after drive w) = store w
  /\ path (after drive w) = path w
  /\ constants (car (after drive w)) = constants (car w).
Proof.
  unfold after. rewrite drive_eq. cbv zeta.
  destruct (stanley_control _ _ _ _ _ _ _) as [[[d tid] cte]|e]; simpl; auto.
  destruct (kinematic_model _ _ _ _ _ _ _)
    as [[[[[[x' y'] yaw'] v'] d'] om']|e]; simpl; auto.
Qed.

End DriveFacts.

(** ** Reading the table *)

Example zip_star_columns :
  zip_star [[1; 2]; [3; 4]; [5; 6]]%nat = [[1; 3; 5]; [2; 4; 6]]%nat.
Proof. reflexivity. Qed.

Example zip_star_shortest_row :
  zip_star [[1; 2; 3]; [4; 5]]%nat = [[1; 4]; [2; 5]]%nat.
Proof. reflexivity. Qed.

(** A table with a header and no data row has no column to unpack. *)
Lemma Path_init_header_only (plib : PathLib) (header : list cell) (h : heap) :
  Path_init [header] h = Raise ValueError.
Proof. reflexivity. Qed.

(** So has a table whose rows have three cells: too many to unpack. *)
Lemma Path_init_three_columns (plib : PathLib) (header : list cell)
    (a b c : R) (h : heap) :
  Path_init [header; [Number a; Number b; Number c]] h = Raise ValueError.
Proof. reflexivity. Qed.

(** A cell that is not a number stops the conversion. *)
Lemma Path_init_text_cell (plib : PathLib) (header : list cell)
    (a : R) (s : string) (h : heap) :
  Path_init [header; [Number a; Text s]] h = Raise ValueError.
Proof. reflexivity. Qed.

(** On two columns of numbers the generator gets the columns, and the
    path gets the addresses of three new lists. *)
Lemma Path_init_two_columns (plib : PathLib) (header : list cell)
    (x0 y0 x1 y1 : R) (h : heap) :
  Path_init [header; [Number x0; Number y0]; [Number x1; Number y1]] h
  = match generate_cubic_spline [x0; x1] [y0; y1] 0.05 with
    | Ok (px, py, pyaw, _) =>
        Ok (Path.mk (List.length h) (S (List.length h))
              (S (S (List.length h))),
            h ++ [px; py; pyaw])
    | Raise e => Raise e
    end.
Proof.
  unfold Path_init; simpl.
  destruct (generate_cubic_spline _ _ _) as [[[[px py] pyaw] c]|e];
    [|reflexivity].
  unfold alloc. rewrite !length_app. simpl.
  rewrite <- !app_assoc. simpl.
  repeat f_equal; lia.
Qed.

(** A path that was built holds the addresses of three new lists: the
    first three the generator returned for the two columns of the table. *)
Lemma Path_init_allocates (plib : PathLib) (rows : list (list cell))
    (h h' : heap) (p : Path.t) :
  Path_init rows h = Ok (p, h') ->
  exists (x y px py pyaw curvature : list R),
    float_columns (zip_star (tl rows)) = Ok [x; y]
    /\ generate_cubic_spline x y 0.05 = Ok (px, py, pyaw, curvature)
    /\ h' = h ++ [px; py; pyaw]
    /\ p = Path.mk (List.length h) (S (List.length h))
             (S (S (List.length h))).
Proof.
  unfold Path_init.
  destruct (float_columns (zip_star (tl rows))) as [cols|e]; [|discriminate].
  destruct cols as [|x [|y [|z cols]]]; try discriminate.
  destruct (generate_cubic_spline x y 0.05) as [[[[px py] pyaw] c]|e] eqn:G;
    [|discriminate].
  unfold alloc. rewrite !length_app. simpl. intros H.
  injection H as Hp Hh. exists x, y, px, py, pyaw, c.
  split; [reflexivity|]. split; [exact G|]. split.
  - rewrite <- Hh, <- !app_assoc. reflexivity.
  - rewrite <- Hp. f_equal; lia.
Qed.

(** ** Traces *)

Lemma calls_app (l1 l2 : list event) : calls (l1 ++ l2) = calls l1 ++ calls l2.
Proof. unfold calls. apply filter_app. Qed.

Lemma draws_app (l1 l2 : list event) : draws (l1 ++ l2) = draws l1 ++ draws l2.
Proof.
  induction l1 as [|ev l1 IH]; simpl; [reflexivity|].
  destruct ev; simpl; rewrite IH; reflexivity.
Qed.

Lemma throttles_app (l1 l2 : list event) :
  throttles (l1 ++ l2) = throttles l1 ++ throttles l2.
Proof.
  induction l1 as [|ev l1 IH]; simpl; [reflexivity|].
  destruct ev; simpl; rewrite IH; reflexivity.
Qed.

Lemma throttles_calls (l : list event) : throttles (calls l) = throttles l.
Proof.
  induction l as [|ev l IH]; simpl; [reflexivity|].
  destruct ev; simpl; rewrite ?IH; reflexivity.
Qed.

(** The model before the controller is not in order, nor is a model call
    with another steering command than the controller returned. *)
Example model_first_not_in_order (a : R) (rs : result (R * nat * R))
    (rk : result (R * R * R * R * R * R)) :
  ~ in_order [EvKbm a a a a a a rk; EvStanley a a a a a rs].
Proof. simpl. auto. Qed.

Example other_command_not_in_order (a : R) (i : nat)
    (rk : result (R * R * R * R * R * R)) :
  ~ in_order [EvStanley a a a a a (Ok (1, i, a)); EvKbm a a a a a 0 rk].
Proof. simpl. intros (H & _). lra. Qed.

(** ** Frames *)

Section FrameFacts.

Context {libs : ControlLibs}.

(** A tick reads the car and the generator, never the trace. *)
Lemma drive_ignores_log (w : World) (l : list event) :
  let w' := mkWorld (store w) (car w) (path w) (rng w) l in
  car (after drive w') = car (after drive w)
  /\ rng (after drive w') = rng (after drive w)
  /\ outcome drive w' = outcome drive w.
Proof.
  unfold after, outcome. rewrite !drive_eq. cbv zeta. unfold drawn. simpl.
  destruct (stanley_control _ _ _ _ _ _ _) as [[[d tid] cte]|e]; simpl; auto.
  destruct (kinematic_model _ _ _ _ _ _ _)
    as [[[[[[x' y'] yaw'] v'] d'] om']|e]; simpl; auto.
Qed.

(** A frame is a tick plus drawing: same car, same generator. *)
Lemma animate_state (frame : nat) (sim : Simulation.t) (w : World) :
  car (after (animate frame sim) w) = car (after drive w)
  /\ rng (after (animate frame sim) w) = rng (after drive w)
  /\ path (after (animate frame sim) w) = path w
  /\ (outcome (animate frame sim) w = Ok tt -> outcome drive w = Ok tt).
Proof.
  pose proof (drive_ignores_log w
                (log w ++ [EvCamera (Car.x (car w)) (Car.y (car w))]))
    as (Hc & Hr & Ho).
  pose proof (drive_frame
                (mkWorld (store w) (car w) (path w) (rng w)
                   (log w ++ [EvCamera (Car.x (car w)) (Car.y (car w))])))
    as (_ & Hp & _).
  cbv zeta in Hc, Hr, Ho. rewrite <- Hc, <- Hr, <- Ho.
  unfold after, outcome in *.
  unfold animate, bind, self, emit, the_path; simpl.
  destruct (drive _) as [[[]|e] w1]; simpl in *; auto.
  destruct (Car.target_id (car w1)) as [tid|]; simpl.
  - unfold index, bind, the_heap, raise, ret; simpl.
    destruct (nth_error (deref (store w1) (Path.px (path w1))) tid); simpl.
    + destruct (nth_error (deref (store w1) (Path.py (path w1))) tid);
        simpl; auto.
    + auto.
  - unfold raise; simpl; auto.
Qed.

(** No frame allocates or changes a list. *)
Lemma animate_store (frame : nat) (sim : Simulation.t) (w : World) :
  store (after (animate frame sim) w) = store w.
Proof.
  pose proof (drive_frame
                (mkWorld (store w) (car w) (path w) (rng w)
                   (log w ++ [EvCamera (Car.x (car w)) (Car.y (car w))])))
    as (Hs & _).
  unfold after in *.
  unfold animate, bind, self, emit, the_path; simpl.
  destruct (drive _) as [[[]|e] w1]; simpl in *; auto.
  destruct (Car.target_id (car w1)) as [tid|]; simpl.
  - unfold index, bind, the_heap, raise, ret; simpl.
    destruct (nth_error (deref (store w1) (Path.px (path w1))) tid); simpl.
    + destruct (nth_error (deref (store w1) (Path.py (path w1))) tid);
        simpl; auto.
    + auto.
  - unfold raise; simpl; auto.
Qed.

(** The drawing adds no call, no draw and no throttle to a tick's. *)
Lemma animate_log (frame : nat) (sim : Simulation.t) (w : World) :
  exists new, log (after (animate frame sim) w) = log w ++ new
              /\ calls new = tick_calls w
              /\ draws new = [drawn w]
              /\ throttles new = throttles (tick_calls w).
Proof.
  destruct (drive_log
              (mkWorld (store w) (car w) (path w) (rng w)
                 (log w ++ [EvCamera (Car.x (car w)) (Car.y (car w))])))
    as (new & Hl & Hc & Hd & Ht).
  change (tick_calls (mkWorld (store w) (car w) (path w) (rng w)
            (log w ++ [EvCamera (Car.x (car w)) (Car.y (car w))])))
    with (tick_calls w) in *.
  change (drawn (mkWorld (store w) (car w) (path w) (rng w)
            (log w ++ [EvCamera (Car.x (car w)) (Car.y (car w))])))
    with (drawn w) in *.
  assert (Hshape : exists tail,
             log (after (animate frame sim) w)
             = log w ++ (EvCamera (Car.x (car w)) (Car.y (car w)) :: new)
                 ++ tail
             /\ calls tail = [] /\ draws tail = [] /\ throttles tail = []).
  { unfold after in *.
    unfold animate, bind, self, emit, the_path; simpl. simpl in Hl.
    destruct (drive _) as [[[]|e] w1]; simpl in *.
    - destruct (Car.target_id (car w1)) as [tid|]; simpl.
      + unfold index, bind, the_heap, raise, ret; simpl.
        destruct (nth_error (deref (store w1) (Path.px (path w1))) tid);
          simpl.
        * destruct (nth_error (deref (store w1) (Path.py (path w1))) tid);
            simpl;
            rewrite Hl; repeat rewrite <- app_assoc; simpl;
            eexists; (split; [reflexivity|]); simpl; auto.
        * rewrite Hl; repeat rewrite <- app_assoc; simpl;
            eexists; (split; [reflexivity|]); simpl; auto.
      + unfold raise; simpl.
        rewrite Hl; repeat rewrite <- app_assoc; simpl;
          eexists; (split; [reflexivity|]); simpl; auto.
    - exists []. rewrite Hl, app_nil_r, <- app_assoc. simpl. auto. }
  destruct Hshape as (tail & Hlog & Tc & Td & Tt).
  eexists; split; [exact Hlog|].
  rewrite calls_app, draws_app, throttles_app, Tc, Td, Tt, !app_nil_r.
  simpl. auto.
Qed.

End FrameFacts.

(** ** Runs of frames *)

Section RunFacts.

Context {libs : ControlLibs}.

Lemma tick_calls_in_order (w : World) : in_order (tick_calls w).
Proof.
  unfold tick_calls.
  destruct (stanley_control _ _ _ _ _ _ _) as [[[d tid] cte]|e]; simpl; auto.
Qed.

(** A tick that returned made both calls. *)
Lemma tick_calls_whole (w : World) :
  outcome drive w = Ok tt ->
  exists x y yaw v delta d tid cte thr rk,
    tick_calls w = [EvStanley x y yaw v delta (Ok (d, tid, cte));
                    EvKbm x y yaw v thr d rk].
Proof.
  unfold outcome, tick_calls. rewrite drive_eq. cbv zeta.
  destruct (stanley_control _ _ _ _ _ _ _) as [[[d tid] cte]|e]; simpl;
    [|discriminate].
  intros _. repeat eexists.
Qed.

Lemma play_step (frame n : nat) (sim : Simulation.t) (w : World) :
  play frame (S n) sim w =
  match animate frame sim w with
  | (Ok _, w') => play (S frame) n sim w'
  | (Raise e, w') => (Raise e, w')
  end.
Proof. reflexivity. Qed.

(** A run of frames is a sequence of whole ticks, the last one possibly
    cut short; a run that returned made exactly [n] of them. *)
Lemma play_log (n : nat) :
  forall (frame : nat) (sim : Simulation.t) (w : World),
  exists new,
    log (after (play frame n sim) w) = log w ++ new
    /\ in_order (calls new)
    /\ (outcome (play frame n sim) w = Ok tt ->
        whole_ticks (calls new) /\ List.length (calls new) = (2 * n)%nat).
Proof.
  induction n as [|n IH]; intros frame sim w.
  - exists []. simpl. rewrite app_nil_r. auto.
  - destruct (animate_log frame sim w) as (new1 & Hl1 & Hc1 & _).
    destruct (animate_state frame sim w) as (_ & _ & _ & Hok).
    unfold after, outcome in *. rewrite play_step.
    destruct (animate frame sim w) as [[[]|e] w1]; simpl in *.
    + destruct (IH (S frame) sim w1) as (new2 & Hl2 & Ho2 & Hw2).
      destruct (tick_calls_whole w (Hok eq_refl))
        as (x & y & yaw & v & dl & d & tid & cte & thr & rk & Hshape).
      exists (new1 ++ new2).
      rewrite Hl2, Hl1, app_assoc, calls_app, Hc1, Hshape. simpl.
      repeat split; auto.
      * apply Hw2; assumption.
      * destruct (Hw2 H) as [_ Hlen]. rewrite Hlen. lia.
    + exists new1. rewrite Hc1. repeat split; auto.
      * apply tick_calls_in_order.
      * discriminate.
      * discriminate.
Qed.

(** No frame touches the lists, the path or the fields [Car.drive] does
    not assign. *)
Lemma play_frame (n : nat) :
  forall (frame : nat) (sim : Simulation.t) (w : World),
    store (after (play frame n sim) w) = store w
    /\ path (after (play frame n sim) w) = path w
    /\ constants (car (after (play frame n sim) w)) = constants (car w).
Proof.
  induction n as [|n IH]; intros frame sim w; [repeat split; reflexivity|].
  destruct (animate_state frame sim w) as (Hc & _ & Hp & _).
  pose proof (animate_store frame sim w) as Hs.
  destruct (drive_frame w) as (_ & _ & Hk).
  unfold after in *. rewrite play_step.
  destruct (animate frame sim w) as [[[]|e] w1]; simpl in *.
  - destruct (IH (S frame) sim w1) as (Hs' & Hp' & Hk').
    rewrite Hs', Hp', Hk', Hs, Hp, Hc, Hk. repeat split; reflexivity.
  - rewrite Hs, Hp, Hc, Hk. repeat split; reflexivity.
Qed.

End RunFacts.

(** ** What a tick depends on *)

Section Dependence.

Context {libs : ControlLibs}.

(** The car a tick leaves is a function of the car it starts from and of
    the next value of the generator. *)
Lemma drive_car_determined (w1 w2 : World) :
  store w1 = store w2 -> car w1 = car w2 -> rng w1 O = rng w2 O ->
  car (after drive w1) = car (after drive w2)
  /\ outcome drive w1 = outcome drive w2.
Proof.
  intros Hs Hc Hr. unfold after, outcome. rewrite !drive_eq. cbv zeta.
  unfold drawn. rewrite Hs, Hc, Hr.
  destruct (stanley_control _ _ _ _ _ _ _) as [[[d tid] cte]|e]; simpl; auto.
  destruct (kinematic_model _ _ _ _ _ _ _)
    as [[[[[[x' y'] yaw'] v'] d'] om']|e]; simpl; auto.
Qed.

(** What the controller contributes does not depend on the generator. *)
Lemma drive_control_determined (w1 w2 : World) :
  store w1 = store w2 -> car w1 = car w2 ->
  control_outputs (after drive w1) = control_outputs (after drive w2).
Proof.
  intros Hs Hc. unfold after, control_outputs. rewrite !drive_eq. cbv zeta.
  rewrite Hs, Hc.
  destruct (stanley_control _ _ _ _ _ _ _) as [[[d tid] cte]|e]; simpl; auto.
  destruct (kinematic_model _ _ _ _ _ _ _)
    as [[[[[[x1 y1] yaw1] v1] d1] om1]|e1];
  destruct (kinematic_model _ _ _ _ _ _ _)
    as [[[[[[x2 y2] yaw2] v2] d2] om2]|e2]; simpl; auto.
Qed.

Lemma drive_rng (w : World) :
  rng (after drive w) = fun n => rng w (S n).
Proof.
  unfold after. rewrite drive_eq. cbv zeta.
  destruct (stanley_control _ _ _ _ _ _ _) as [[[d tid] cte]|e]; simpl; auto.
  destruct (kinematic_model _ _ _ _ _ _ _)
    as [[[[[[x' y'] yaw'] v'] d'] om']|e]; simpl; auto.
Qed.

Lemma animate_same_state (frame1 frame2 : nat) (sim1 sim2 : Simulation.t)
    (w1 w2 : World) :
  same_state w1 w2 ->
  same_state (after (animate frame1 sim1) w1) (after (animate frame2 sim2) w2).
Proof.
  intros (Hs & Hc & Hp & Hr).
  destruct (animate_state frame1 sim1 w1) as (Hc1 & Hr1 & Hp1 & _).
  destruct (animate_state frame2 sim2 w2) as (Hc2 & Hr2 & Hp2 & _).
  unfold same_state.
  rewrite !animate_store, Hc1, Hc2, Hr1, Hr2, Hp1, Hp2, !drive_rng, Hr.
  repeat split; auto.
  apply drive_car_determined; [assumption | assumption |].
  rewrite Hr; reflexivity.
Qed.

End Dependence.

(** The last two outputs of the model do not reach the car. *)
Lemma drive_discards_tail (l : ControlLibs) (g : R -> R -> R * R) (w : World) :
  car (after (@drive (replace_tail l g)) w) = car (after (@drive l) w)
  /\ rng (after (@drive (replace_tail l g)) w) = rng (after (@drive l) w)
  /\ outcome (@drive (replace_tail l g)) w = outcome (@drive l) w.
Proof.
  unfold after, outcome. rewrite !drive_eq. cbv zeta. simpl.
  destruct (stanley_control _ _ _ _ _ _ _) as [[[d tid] cte]|e]; simpl; auto.
  destruct (kinematic_model _ _ _ _ _ _ _)
    as [[[[[[x' y'] yaw'] v'] d'] om']|e]; simpl; auto.
Qed.

Lemma animate_outcome {libs : ControlLibs} (frame : nat) (sim : Simulation.t)
    (w : World) :
  outcome (animate frame sim) w
  = frame_outcome (outcome drive w) (car (after drive w)) (store w) (path w).
Proof.
  pose proof (drive_ignores_log w
                (log w ++ [EvCamera (Car.x (car w)) (Car.y (car w))]))
    as (Hc & _ & Ho).
  pose proof (drive_frame
                (mkWorld (store w) (car w) (path w) (rng w)
                   (log w ++ [EvCamera (Car.x (car w)) (Car.y (car w))])))
    as (Hs & Hp & _).
  cbv zeta in Hc, Ho. rewrite <- Hc, <- Ho.
  unfold after, outcome, frame_outcome in *.
  unfold animate, bind, self, emit, the_path; simpl.
  destruct (drive _) as [[[]|e] w1]; simpl in *; auto.
  rewrite <- Hp, <- Hs.
  destruct (Car.target_id (car w1)) as [tid|]; simpl; auto.
  unfold index, bind, the_heap, raise, ret; simpl.
  destruct (nth_error (deref (store w1) (Path.px (path w1))) tid);
    simpl; auto.
  destruct (nth_error (deref (store w1) (Path.py (path w1))) tid);
    simpl; auto.
Qed.

(** Over a whole run too, the last two outputs of the model do not reach
    the car, and so not the controller's inputs of any later tick. *)
Lemma play_discards_tail (l : ControlLibs) (g : R -> R -> R * R) (n : nat) :
  forall (frame : nat) (sim : Simulation.t) (w1 w2 : World),
    same_state w1 w2 ->
    car (after (@play (replace_tail l g) frame n sim) w1)
    = car (after (@play l frame n sim) w2)
    /\ outcome (@play (replace_tail l g) frame n sim) w1
       = outcome (@play l frame n sim) w2.
Proof.
  induction n as [|n IH]; intros frame sim w1 w2 Hs.
  - destruct Hs as (_ & Hc & _). split; [exact Hc | reflexivity].
  - assert (Hs' : same_state
                    (after (@animate (replace_tail l g) frame sim) w1)
                    (after (@animate l frame sim) w2)).
    { destruct Hs as (Hh & Hc & Hp & Hr).
      destruct (@animate_state (replace_tail l g) frame sim w1)
        as (Hc1 & Hr1 & Hp1 & _).
      destruct (@animate_state l frame sim w2) as (Hc2 & Hr2 & Hp2 & _).
      destruct (drive_discards_tail l g w1) as (Dc & Dr & _).
      unfold same_state.
      rewrite (@animate_store (replace_tail l g)), (@animate_store l).
      rewrite Hc1, Hc2, Hr1, Hr2, Hp1, Hp2, Dc, Dr, !(@drive_rng l), Hr.
      repeat split; auto.
      apply drive_car_determined; [assumption | assumption |].
      rewrite Hr; reflexivity. }
    assert (Ho : outcome (@animate (replace_tail l g) frame sim) w1
                 = outcome (@animate l frame sim) w2).
    { destruct Hs as (Hh & Hc & Hp & Hr).
      rewrite !animate_outcome.
      destruct (drive_discards_tail l g w1) as (Dc & _ & Do).
      rewrite Dc, Do, Hp, Hh.
      destruct (@drive_car_determined l w1 w2 Hh Hc) as (Ec & Eo);
        [rewrite Hr; reflexivity|].
      rewrite Ec, Eo. reflexivity. }
    unfold after, outcome in *. rewrite !play_step.
    destruct (@animate (replace_tail l g) frame sim w1) as [[[]|e1] u1];
      destruct (@animate l frame sim w2) as [[[]|e2] u2]; simpl in *;
      try discriminate.
    + apply IH; assumption.
    + destruct Hs' as (_ & Hc' & _). split; [exact Hc' | exact Ho].
Qed.

(** ** Clamping and the steering bound *)

Lemma clamp_bounds (lo hi a : R) : lo <= hi -> lo <= clamp lo hi a <= hi.
Proof.
  intros H. unfold clamp, Rmin, Rmax.
  destruct (Rle_dec lo a); destruct (Rle_dec hi _); lra.
Qed.

Lemma clamp_abs (m a : R) : 0 <= m -> Rabs (clamp (- m) m a) <= m.
Proof.
  intros H. apply Rabs_le. apply clamp_bounds. lra.
Qed.

Lemma clamp_inside (lo hi a : R) : lo <= a <= hi -> clamp lo hi a = a.
Proof.
  intros H. unfold clamp, Rmin, Rmax.
  destruct (Rle_dec lo a); destruct (Rle_dec hi _); lra.
Qed.

(** A normalised angle is in the half-open range from [-PI] to [PI]. *)
Lemma normalise_angle_range (a : R) : - PI < normalise_angle a <= PI.
Proof.
  unfold normalise_angle.
  pose proof PI_RGT_0 as Hpi.
  destruct (base_Int_part ((PI - a) / (2 * PI))) as (Hle & Hgt).
  set (m := IZR (Int_part ((PI - a) / (2 * PI)))) in *.
  assert (Hq : (PI - a) / (2 * PI) * (2 * PI) = PI - a) by (field; lra).
  split.
  - assert (H : (PI - a) / (2 * PI) - 1 < m) by lra.
    apply Rmult_lt_compat_r with (r := 2 * PI) in H; [|lra].
    nra.
  - apply Rmult_le_compat_r with (r := 2 * PI) in Hle; [|lra].
    nra.
Qed.

Lemma radians_33_pos : 0 < radians 33.
Proof. unfold radians. pose proof PI_RGT_0. lra. Qed.

(** With a positive second argument [atan2] is the arctangent of the
    quotient. *)
Lemma atan2_pos (y x : R) : 0 < x -> atan2 y x = atan (y / x).
Proof.
  intros H. unfold atan2. destruct (Rlt_dec 0 x); [reflexivity | contradiction].
Qed.

(** ** The relations of the steering law

    The functions the controller is written with satisfy the relations of
    the specification, and each relation fixes its last argument. *)

Lemma clamp_limited (m a : R) : 0 <= m -> limited_to m a (clamp (- m) m a).
Proof.
  intros H. unfold limited_to, clamp, Rmin, Rmax.
  destruct (Rle_dec (- m) a); destruct (Rle_dec m _); repeat split; intros; lra.
Qed.

Lemma limited_to_unique (m a d1 d2 : R) :
  limited_to m a d1 -> limited_to m a d2 -> d1 = d2.
Proof.
  intros (A1 & B1 & C1) (A2 & B2 & C2).
  destruct (Rlt_dec a (- m)) as [H|H]; [rewrite A1, A2; auto|].
  destruct (Rlt_dec m a) as [H'|H']; [rewrite C1, C2; auto|].
  rewrite B1, B2; auto; lra.
Qed.

Lemma normalise_angle_difference (a b : R) :
  normalised_difference a b (normalise_angle (a - b)).
Proof.
  split; [apply normalise_angle_range|].
  exists (Int_part ((PI - (a - b)) / (2 * PI))). reflexivity.
Qed.

Lemma normalised_difference_unique (a b e1 e2 : R) :
  normalised_difference a b e1 -> normalised_difference a b e2 -> e1 = e2.
Proof.
  intros (R1 & k1 & E1) (R2 & k2 & E2).
  pose proof PI_RGT_0 as Hpi.
  assert (H : e1 - e2 = 2 * PI * IZR (k1 - k2)).
  { rewrite minus_IZR. lra. }
  assert (Hk : (k1 - k2 = 0)%Z).
  { assert (Hlt : -1 < IZR (k1 - k2) < 1).
    { split.
      - apply Rmult_lt_reg_l with (2 * PI); [lra|]. rewrite <- H. lra.
      - apply Rmult_lt_reg_l with (2 * PI); [lra|]. rewrite <- H. lra. }
    destruct Hlt as (Hl & Hu).
    apply lt_IZR in Hl. apply lt_IZR in Hu. lia. }
  rewrite Hk in H. simpl in H. lra.
Qed.

Lemma sqrt_factor (x y : R) :
  x <> 0 -> sqrt (x * x + y * y) = Rabs x * sqrt (1 + (y / x)²).
Proof.
  intros Hx.
  assert (Hs : 0 <= 1 + (y / x)²) by (pose proof (Rle_0_sqr (y / x)); lra).
  apply sqrt_lem_1.
  - nra.
  - apply Rmult_le_pos; [apply Rabs_pos | apply sqrt_pos].
  - replace (Rabs x * sqrt (1 + (y / x)²) * (Rabs x * sqrt (1 + (y / x)²)))
      with ((Rabs x * Rabs x) * (sqrt (1 + (y / x)²) * sqrt (1 + (y / x)²)))
      by ring.
    rewrite sqrt_sqrt by exact Hs.
    replace (Rabs x * Rabs x) with (x * x).
    + unfold Rsqr. field. exact Hx.
    + unfold Rabs. destruct (Rcase_abs x); ring.
Qed.

Lemma sqrt_one_plus_pos (z : R) : 0 < sqrt (1 + z²).
Proof. apply sqrt_lt_R0. pose proof (Rle_0_sqr z). lra. Qed.

(** The cosine and sine of [atan (y / x)], scaled by the distance of
    [(x, y)] from the origin. *)
Lemma scaled_cos_atan (x y : R) :
  x <> 0 -> sqrt (x * x + y * y) * cos (atan (y / x)) = Rabs x.
Proof.
  intros Hx. rewrite (sqrt_factor x y Hx), cos_atan.
  pose proof (sqrt_one_plus_pos (y / x)). field. lra.
Qed.

Lemma scaled_sin_atan (x y : R) :
  x <> 0 -> sqrt (x * x + y * y) * sin (atan (y / x)) = Rabs x * (y / x).
Proof.
  intros Hx. rewrite (sqrt_factor x y Hx), sin_atan.
  pose proof (sqrt_one_plus_pos (y / x)). field. lra.
Qed.

Lemma atan_sign_pos (z : R) : 0 < z -> 0 < atan z.
Proof. intros H. rewrite <- atan_0. apply atan_increasing, H. Qed.

Lemma atan_sign_neg (z : R) : z <= 0 -> atan z <= 0.
Proof.
  intros [H|H].
  - left. rewrite <- atan_0. apply atan_increasing, H.
  - rewrite H, atan_0. lra.
Qed.

Lemma atan2_polar (y x : R) : polar_angle y x (atan2 y x).
Proof.
  pose proof PI_RGT_0 as Hpi. unfold polar_angle, atan2.
  destruct (Rlt_dec 0 x) as [Hx|Hx].
  - pose proof (atan_bound (y / x)) as Hb.
    assert (Hn : x <> 0) by lra.
    rewrite (scaled_cos_atan x y Hn), (scaled_sin_atan x y Hn).
    rewrite (Rabs_pos_eq x) by lra.
    repeat split; try lra.
    field. exact Hn.
  - destruct (Rlt_dec x 0) as [Hx'|Hx'].
    + pose proof (atan_bound (y / x)) as Hb.
      assert (Hn : x <> 0) by lra.
      pose proof (scaled_cos_atan x y Hn) as Hc.
      pose proof (scaled_sin_atan x y Hn) as Hs.
      rewrite (Rabs_left x Hx') in Hc, Hs.
      assert (Hxy : - x * (y / x) = - y) by (field; exact Hn).
      destruct (Rle_dec 0 y) as [Hy|Hy].
      * assert (Hz : y / x <= 0).
        { unfold Rdiv. pose proof (Rinv_lt_0_compat x Hx'). nra. }
        pose proof (atan_sign_neg _ Hz).
        rewrite neg_cos, neg_sin.
        repeat split; try lra; nra.
      * assert (Hz : 0 < y / x).
        { unfold Rdiv. pose proof (Rinv_lt_0_compat x Hx'). nra. }
        pose proof (atan_sign_pos _ Hz).
        replace (atan (y / x) - PI) with (- (PI - atan (y / x))) by ring.
        rewrite cos_neg, sin_neg.
        replace (PI - atan (y / x)) with (- atan (y / x) + PI) by ring.
        rewrite neg_cos, neg_sin, cos_neg, sin_neg.
        repeat split; try lra; nra.
    + assert (Hx0 : x = 0) by lra. subst x.
      replace (0 * 0 + y * y) with (Rsqr y) by (unfold Rsqr; ring).
      rewrite sqrt_Rsqr_abs.
      destruct (Rlt_dec 0 y) as [Hy|Hy].
      * rewrite cos_PI2, sin_PI2, (Rabs_pos_eq y) by lra.
        repeat split; try lra.
      * destruct (Rlt_dec y 0) as [Hy'|Hy'].
        -- rewrite cos_neg, sin_neg, cos_PI2, sin_PI2, (Rabs_left y Hy').
           repeat split; try lra.
        -- assert (Hy0 : y = 0) by lra. subst y.
           rewrite Rabs_R0, cos_0, sin_0.
           repeat split; try lra.
Qed.

Lemma cos_one_small (a : R) : - (2 * PI) < a < 2 * PI -> cos a = 1 -> a = 0.
Proof.
  intros Ha Hc. pose proof PI_RGT_0 as Hpi.
  assert (Hs : sin a = 0).
  { pose proof (sin2_cos2 a) as H. rewrite Hc in H. unfold Rsqr in H. nra. }
  destruct (sin_eq_0_0 a Hs) as (k & Hk).
  assert (Hlt : -2 < IZR k < 2).
  { split; apply Rmult_lt_reg_r with PI; lra. }
  destruct Hlt as (Hl & Hu). apply lt_IZR in Hl. apply lt_IZR in Hu.
  assert (Hk3 : (k = -1 \/ k = 0 \/ k = 1)%Z) by lia.
  destruct Hk3 as [Hk1|[Hk1|Hk1]]; subst k.
  - exfalso. replace (-1 * PI) with (- PI) in Hk by ring.
    rewrite Hk, cos_neg, cos_PI in Hc. lra.
  - lra.
  - exfalso. rewrite Hk, Rmult_1_l, cos_PI in Hc. lra.
Qed.

Lemma polar_angle_unique (y x p1 p2 : R) :
  polar_angle y x p1 -> polar_angle y x p2 -> p1 = p2.
Proof.
  intros (R1 & C1 & S1 & O1) (R2 & C2 & S2 & O2).
  destruct (Req_dec (sqrt (x * x + y * y)) 0) as [Hr|Hr].
  - apply sqrt_eq_0 in Hr; [|nra].
    assert (x = 0 /\ y = 0) as (Hx & Hy) by (split; nra).
    rewrite (O1 Hx Hy), (O2 Hx Hy). reflexivity.
  - set (r := sqrt (x * x + y * y)) in *.
    assert (Hc : cos p1 = cos p2).
    { apply Rmult_eq_reg_l with r; [lra | exact Hr]. }
    assert (Hs : sin p1 = sin p2).
    { apply Rmult_eq_reg_l with r; [lra | exact Hr]. }
    assert (H : cos (p1 - p2) = 1).
    { rewrite cos_minus, Hc, Hs.
      pose proof (sin2_cos2 p2) as H. unfold Rsqr in H. lra. }
    apply cos_one_small in H; lra.
Qed.

(** ** The target search *)

(** The scan returns either the best index it started from, when no sample
    of the list is strictly nearer, or the index of a sample of the list
    strictly nearer than the start; in both cases no sample of the list is
    nearer than the one returned. *)
Lemma scan_nearest (f : R * R) (d0 : R * R * R) (l : list (R * R * R)) :
  forall (best : nat) (best_d : R) (i : nat),
    let r := SpecControl.scan f best best_d i l in
    (r = best
     /\ forall j, (j < List.length l)%nat ->
          best_d <= SpecControl.distance_to f (nth j l d0))
    \/ (exists k, (k < List.length l)%nat /\ r = (i + k)%nat
        /\ SpecControl.distance_to f (nth k l d0) < best_d
        /\ forall j, (j < List.length l)%nat ->
             SpecControl.distance_to f (nth k l d0)
             <= SpecControl.distance_to f (nth j l d0)).
Proof.
  induction l as [|s l IH]; intros best best_d i; cbv zeta.
  - left. split; [reflexivity|]. simpl. intros j Hj. lia.
  - simpl SpecControl.scan.
    destruct (Rlt_dec (SpecControl.distance_to f s) best_d) as [Hlt|Hge].
    + right.
      destruct (IH i (SpecControl.distance_to f s) (S i))
        as [(Hr & Hall)|(k & Hk & Hr & Hd & Hall)].
      * exists 0%nat. simpl. repeat split.
        -- lia.
        -- rewrite Hr. lia.
        -- exact Hlt.
        -- intros [|j] Hj; [lra|]. apply Hall. lia.
      * exists (S k). simpl. repeat split.
        -- lia.
        -- rewrite Hr. lia.
        -- lra.
        -- intros [|j] Hj; [lra|]. apply Hall. lia.
    + destruct (IH best best_d (S i))
        as [(Hr & Hall)|(k & Hk & Hr & Hd & Hall)].
      * left. split; [exact Hr|].
        intros [|j] Hj; simpl; [lra|]. apply Hall. simpl in Hj. lia.
      * right. exists (S k). simpl. repeat split.
        -- lia.
        -- rewrite Hr. lia.
        -- exact Hd.
        -- intros [|j] Hj; [lra|]. apply Hall. lia.
Qed.

Lemma nth_combine3 (lx ly lyaw : list R) :
  forall j,
    (j < Nat.min (Nat.min (List.length lx) (List.length ly)) (List.length lyaw))%nat ->
    nth j (combine (combine lx ly) lyaw) (0, 0, 0)
    = (nth j lx 0, nth j ly 0, nth j lyaw 0).
Proof.
  revert ly lyaw.
  induction lx as [|a lx IH]; intros [|b ly] [|c lyaw] j Hj; simpl in Hj;
    try lia.
  destruct j as [|j]; simpl; [reflexivity|]. apply IH. lia.
Qed.


Section SpecControlFacts.

Variable yaw_rate_of : R -> R -> R -> R.
Variable throttle_force : R -> R.
Variable steer_tol : R.

(** The controller raises on a path without samples only, and what it
    returns otherwise is the clamped steering law at the nearest
    sample. *)
Lemma stanley_control_cases (h : heap) (t : StanleyController.t)
    (x y yaw v delta : R) :
  match SpecControl.stanley_control yaw_rate_of h t x y yaw v delta with
  | Ok (d, i, cte) =>
      let f := SpecControl.front_axle t x y yaw in
      let s := nth i (SpecControl.samples h t) (0, 0, 0) in
      SpecControl.samples h t <> []
      /\ SpecControl.target_index h t f = Some i
      /\ cte = SpecControl.cross_track_error f s
      /\ d = clamp (- StanleyController.max_steer t)
               (StanleyController.max_steer t)
               (SpecControl.raw_steer yaw_rate_of t
                  (SpecControl.heading_error s yaw) cte v delta)
  | Raise e => e = EmptyPathError /\ SpecControl.samples h t = []
  end.
Proof.
  unfold SpecControl.stanley_control, SpecControl.target_index.
  destruct (SpecControl.samples h t) as [|s l] eqn:E; simpl; [auto|].
  repeat split; auto. discriminate.
Qed.

Lemma stanley_control_bound (h : heap) (t : StanleyController.t)
    (x y yaw v delta : R) :
  0 <= StanleyController.max_steer t ->
  match SpecControl.stanley_control yaw_rate_of h t x y yaw v delta with
  | Ok (d, _, _) => Rabs d <= StanleyController.max_steer t
  | Raise _ => True
  end.
Proof.
  intros H. pose proof (stanley_control_cases h t x y yaw v delta) as C.
  destruct (SpecControl.stanley_control _ _ _ _ _ _ _ _)
    as [[[d i] cte]|e]; [|exact I].
  destruct C as (_ & _ & _ & ->). apply clamp_abs, H.
Qed.

(** The target is a sample, and no sample is nearer to the front axle. *)
Lemma target_index_nearest (h : heap) (t : StanleyController.t) (f : R * R)
    (i : nat) :
  SpecControl.target_index h t f = Some i ->
  (i < List.length (SpecControl.samples h t))%nat
  /\ forall j, (j < List.length (SpecControl.samples h t))%nat ->
       SpecControl.distance_to f (nth i (SpecControl.samples h t) (0, 0, 0))
       <= SpecControl.distance_to f (nth j (SpecControl.samples h t) (0, 0, 0)).
Proof.
  unfold SpecControl.target_index.
  destruct (SpecControl.samples h t) as [|s l]; [discriminate|].
  intros H. injection H as H.
  destruct (scan_nearest f (0, 0, 0) l 0%nat (SpecControl.distance_to f s) 1%nat)
    as [(Hr & Hall)|(k & Hk & Hr & Hd & Hall)]; cbv zeta in *;
    subst i; rewrite Hr.
  - split; [simpl; lia|].
    intros [|j] Hj; cbn [nth]; [apply Rle_refl|]. apply Hall. simpl in Hj. lia.
  - split; [simpl; lia|].
    intros [|j] Hj; cbn [nth Nat.add]; [lra|]. apply Hall. simpl in Hj. lia.
Qed.

Lemma controller_samples_length (h : heap) (t : StanleyController.t) :
  List.length (SpecControl.samples h t)
  = Nat.min (Nat.min (List.length (deref h (StanleyController.px t)))
                     (List.length (deref h (StanleyController.py t))))
            (List.length (deref h (StanleyController.pyaw t))).
Proof. unfold SpecControl.samples. rewrite !length_combine. reflexivity. Qed.

(** What the controller returns, written out on the three lists: the
    target is a sample no other sample is nearer to the front axle than,
    the error is taken at it, and the command is the clamped law. *)
Lemma stanley_control_law (h : heap) (t : StanleyController.t)
    (x y yaw v delta : R) :
  let lx := deref h (StanleyController.px t) in
  let ly := deref h (StanleyController.py t) in
  let lyaw := deref h (StanleyController.pyaw t) in
  let n := Nat.min (Nat.min (List.length lx) (List.length ly))
                   (List.length lyaw) in
  let fx := x + StanleyController.wheelbase t / 2 * cos yaw in
  let fy := y + StanleyController.wheelbase t / 2 * sin yaw in
  let dist := fun j : nat =>
    sqrt ((fx - nth j lx 0) * (fx - nth j lx 0)
          + (fy - nth j ly 0) * (fy - nth j ly 0)) in
  match SpecControl.stanley_control yaw_rate_of h t x y yaw v delta with
  | Ok (d, i, cte) =>
      let new_angle :=
        normalise_angle (nth i lyaw 0 - yaw)
        + atan2 (StanleyController.k t * cte) (StanleyController.ksoft t + v)
        + StanleyController.kyaw t
          * yaw_rate_of v delta (StanleyController.wheelbase t) in
      (i < n)%nat
      /\ (forall j, (j < n)%nat -> dist i <= dist j)
      /\ cte = (fx - nth i lx 0) * sin (nth i lyaw 0)
               - (fy - nth i ly 0) * cos (nth i lyaw 0)
      /\ d = clamp (- StanleyController.max_steer t)
               (StanleyController.max_steer t)
               (new_angle + StanleyController.ksteer t * (new_angle - delta))
  | Raise e => e = EmptyPathError /\ n = 0%nat
  end.
Proof.
  cbv zeta.
  pose proof (stanley_control_cases h t x y yaw v delta) as C.
  pose proof (controller_samples_length h t) as Hn.
  destruct (SpecControl.stanley_control _ _ _ _ _ _ _ _) as [[[d i] cte]|e].
  - cbv zeta in C. destruct C as (_ & Hi & Hcte & Hd).
    apply target_index_nearest in Hi. destruct Hi as (Hlt & Hmin).
    rewrite Hn in Hlt, Hmin.
    assert (Hnth : forall j,
               (j < Nat.min (Nat.min (List.length (deref h (StanleyController.px t)))
                                     (List.length (deref h (StanleyController.py t))))
                            (List.length (deref h (StanleyController.pyaw t))))%nat ->
               nth j (SpecControl.samples h t) (0, 0, 0)
               = (nth j (deref h (StanleyController.px t)) 0,
                  nth j (deref h (StanleyController.py t)) 0,
                  nth j (deref h (StanleyController.pyaw t)) 0)).
    { intros j Hj. apply nth_combine3, Hj. }
    split; [exact Hlt|]. split; [|split].
    + intros j Hj. specialize (Hmin j Hj).
      rewrite (Hnth i Hlt), (Hnth j Hj) in Hmin. exact Hmin.
    + rewrite Hcte, (Hnth i Hlt). reflexivity.
    + rewrite Hd, (Hnth i Hlt). reflexivity.
  - destruct C as (He & Hs). split; [exact He|].
    rewrite <- Hn, Hs. reflexivity.
Qed.

(** The model raises on a steering angle past the tolerance only, and
    hands the angle back as received otherwise. *)
Lemma kinematic_model_cases (m : KinematicBicycleModel.t)
    (x y yaw v throttle delta : R) :
  match SpecControl.kinematic_model throttle_force steer_tol m
          x y yaw v throttle delta with
  | Ok (x', y', yaw', v', d, om) =>
      Rabs delta <= KinematicBicycleModel.max_steer m + steer_tol
      /\ d = delta
      /\ v' = v + (throttle_force throttle
                   - KinematicBicycleModel.c_r m * v
                   - KinematicBicycleModel.c_a m * (v * Rabs v))
                  * KinematicBicycleModel.dt m
      /\ om = v / KinematicBicycleModel.wheelbase m * tan delta
      /\ - PI < yaw' <= PI
  | Raise e =>
      e = InvalidSteeringError
      /\ KinematicBicycleModel.max_steer m + steer_tol < Rabs delta
  end.
Proof.
  unfold SpecControl.kinematic_model.
  destruct (Rlt_dec _ _) as [H|H]; [auto|].
  split; [lra|]. split; [reflexivity|]. split; [reflexivity|].
  split; [reflexivity|]. apply normalise_angle_range.
Qed.

End SpecControlFacts.

(** ** The stored steering angle *)

Lemma spec_libs_clamp (yaw_rate_of : R -> R -> R -> R)
    (throttle_force : R -> R) (steer_tol : R) :
  clamps (SpecControl.libs yaw_rate_of throttle_force steer_tol).
Proof.
  intros h t x y yaw v delta H. simpl. apply stanley_control_bound, H.
Qed.

Lemma Car_init_steer_bounded (init_x init_y init_yaw : R)
    (px py pyaw : ref) (dt : R) :
  steer_bounded (Car_init init_x init_y init_yaw px py pyaw dt).
Proof.
  pose proof radians_33_pos. unfold steer_bounded; simpl.
  repeat split; try lra.
  replace 0.0 with 0 by lra. rewrite Rabs_R0. lra.
Qed.

Lemma drive_steer_bounded (l : ControlLibs) (w : World) :
  clamps l -> steer_bounded (car w) ->
  steer_bounded (car (after (@drive l) w)).
Proof.
  intros Hl (Hpos & Heq & Hd).
  pose proof (Hl (store w) (Car.tracker (car w)) (Car.x (car w)) (Car.y (car w))
                (Car.yaw (car w)) (Car.v (car w)) (Car.delta (car w)) Hpos)
    as Hb.
  unfold after. rewrite drive_eq. cbv zeta.
  destruct (stanley_control _ _ _ _ _ _ _) as [[[d tid] cte]|e]; simpl.
  - destruct (kinematic_model _ _ _ _ _ _ _)
      as [[[[[[x' y'] yaw'] v'] d'] om']|e]; simpl;
      unfold steer_bounded; simpl; rewrite <- Heq; auto.
  - unfold steer_bounded; auto.
Qed.

Lemma play_steer_bounded (l : ControlLibs) (n : nat) :
  clamps l ->
  forall (frame : nat) (sim : Simulation.t) (w : World),
    steer_bounded (car w) ->
    steer_bounded (car (after (@play l frame n sim) w)).
Proof.
  intros Hl. induction n as [|n IH]; intros frame sim w Hw; [exact Hw|].
  destruct (@animate_state l frame sim w) as (Hc & _).
  pose proof (drive_steer_bounded l w Hl Hw) as Hd. rewrite <- Hc in Hd.
  unfold after in *. rewrite play_step.
  destruct (@animate l frame sim w) as [[[]|e] w1]; simpl in *; auto.
Qed.

(** ** A tick on the one-sample path *)

(** From the origin world the controller returns, the model accepts its
    command, and the model receives the drawn throttle. *)
Lemma origin_tick (u : R) :
  let w := after (@drive SpecControl.plain) (origin_world u) in
  Car.v (car w) = 3 + u
  /\ outcome (@drive SpecControl.plain) (origin_world u) = Ok tt
  /\ throttles (log w) = [150 + 50 * u].
Proof.
  cbv zeta. unfold after, outcome. rewrite drive_eq. cbv zeta.
  set (c := car (origin_world u)).
  pose proof (stanley_control_cases
                (fun v delta wheelbase => v / wheelbase * tan delta)
                origin_heap (Car.tracker c) (Car.x c) (Car.y c) (Car.yaw c) (Car.v c)
                (Car.delta c)) as Hs.
  pose proof (stanley_control_bound
                (fun v delta wheelbase => v / wheelbase * tan delta)
                origin_heap (Car.tracker c) (Car.x c) (Car.y c) (Car.yaw c) (Car.v c)
                (Car.delta c)) as Hb.
  change (@stanley_control SpecControl.plain) with
    (SpecControl.stanley_control
       (fun v delta wheelbase => v / wheelbase * tan delta)).
  change (store (origin_world u)) with origin_heap.
  destruct (SpecControl.stanley_control _ _ _ _ _ _ _ _) as [[[d tid] cte]|e].
  - assert (Hd : Rabs d <= radians 33).
    { apply Hb. simpl. pose proof radians_33_pos. lra. }
    pose proof (kinematic_model_cases (fun t => t) 0 (Car.kbm c)
                  (Car.x c) (Car.y c) (Car.yaw c) (Car.v c)
                  (drawn (origin_world u)) d) as Hk.
    change (@kinematic_model SpecControl.plain) with
      (SpecControl.kinematic_model (fun t => t) 0).
    destruct (SpecControl.kinematic_model _ _ _ _ _ _ _ _ _)
      as [[[[[[x' y'] yaw'] v'] d'] om']|e].
    + destruct Hk as (_ & _ & Hv & _). simpl.
      repeat split.
      * rewrite Hv. unfold drawn. simpl. unfold constant_rng.
        replace 0.0 with 0 by lra. rewrite Rabs_R0. lra.
      * unfold drawn. simpl. unfold constant_rng. f_equal. lra.
    + destruct Hk as (_ & Hk). simpl in Hk. lra.
  - destruct Hs as (_ & Hs). discriminate Hs.
Qed.

(** ** Throttle values over a run *)

Section ThrottleFacts.

Context {libs : ControlLibs}.

Lemma tick_throttles (w : World) :
  throttles (tick_calls w)
  = if is_ok (stanley_control (store w) (Car.tracker (car w)) (Car.x (car w))
                (Car.y (car w)) (Car.yaw (car w)) (Car.v (car w))
                (Car.delta (car w)))
    then [drawn w] else [].
Proof.
  unfold tick_calls.
  destruct (stanley_control _ _ _ _ _ _ _) as [[[d tid] cte]|e]; reflexivity.
Qed.

Lemma tick_throttles_ok (w : World) :
  outcome drive w = Ok tt -> throttles (tick_calls w) = [drawn w].
Proof.
  rewrite tick_throttles. unfold outcome. rewrite drive_eq. cbv zeta.
  destruct (stanley_control _ _ _ _ _ _ _) as [[[d tid] cte]|e]; simpl;
    [reflexivity | discriminate].
Qed.

(** Every throttle the model receives in a run was drawn inside it: the
    throttles are the draws, but for the last one when the controller
    raised after it. *)
Lemma play_throttles (n : nat) :
  forall (frame : nat) (sim : Simulation.t) (w : World),
  exists new,
    log (after (play frame n sim) w) = log w ++ new
    /\ exists rest, draws new = throttles new ++ rest.
Proof.
  induction n as [|n IH]; intros frame sim w.
  - exists []. simpl. rewrite app_nil_r. split; [reflexivity|].
    exists []. reflexivity.
  - destruct (animate_log frame sim w) as (new1 & Hl1 & _ & Hd1 & Ht1).
    destruct (animate_state frame sim w) as (_ & _ & _ & Hok).
    unfold after, outcome in *. rewrite play_step.
    destruct (animate frame sim w) as [[[]|e] w1]; cbn [fst snd] in *.
    + destruct (IH (S frame) sim w1) as (new2 & Hl2 & rest & Hr).
      exists (new1 ++ new2). rewrite Hl2, Hl1, app_assoc.
      split; [reflexivity|]. exists rest.
      rewrite draws_app, throttles_app, Hd1, Ht1, Hr.
      rewrite (tick_throttles_ok w (Hok eq_refl)). reflexivity.
    + exists new1. split; [assumption|].
      rewrite Hd1, Ht1, tick_throttles.
      destruct (is_ok _); [exists [] | exists [drawn w]]; reflexivity.
Qed.

End ThrottleFacts.

(** * The claims *)

(** C1, as stated, fails: two ticks from the same car, path and parameters
    that differ only in what the random generator returns next leave
    different velocities, since [Car.drive] draws the throttle itself. *)
Lemma tick_outputs_vary_with_draw :
  store (origin_world 0) = store (origin_world (1 / 2))
  /\ car (origin_world 0) = car (origin_world (1 / 2))
  /\ path (origin_world 0) = path (origin_world (1 / 2))
  /\ outputs (after (@drive SpecControl.plain) (origin_world 0))
     <> outputs (after (@drive SpecControl.plain) (origin_world (1 / 2))).
Proof.
  split; [reflexivity|]. split; [reflexivity|]. split; [reflexivity|].
  intros H.
  apply (f_equal (fun o => snd (fst (fst (fst o))))) in H.
  unfold outputs in H. simpl in H.
  destruct (origin_tick 0) as (H0 & _).
  destruct (origin_tick (1 / 2)) as (H1 & _).
  cbv zeta in H0, H1. rewrite H0, H1 in H. lra.
Qed.

(** C1, amended: from the same car the steering command, target index and
    cross-track error of a tick are the same whatever the random generator
    returns; when the generator also returns the same next value, so are
    the new pose and velocity, and the way the tick ends. *)
Theorem tick_deterministic_given_draw (libs : ControlLibs) (w1 w2 : World) :
  store w1 = store w2 -> car w1 = car w2 ->
  control_outputs (after drive w1) = control_outputs (after drive w2)
  /\ (rng w1 O = rng w2 O ->
      outputs (after drive w1) = outputs (after drive w2)
      /\ outcome drive w1 = outcome drive w2).
Proof.
  intros Hs Hc. split; [apply drive_control_determined; assumption|].
  intros Hr. destruct (drive_car_determined w1 w2 Hs Hc Hr) as (E & Eo).
  unfold outputs. rewrite E. auto.
Qed.

(** The amended C1 at work: two ticks from the origin world, with different
    traces and later draws but the same next draw, give the same outputs. *)
Lemma tick_deterministic_given_draw_witness :
  control_outputs (after (@drive SpecControl.plain) (origin_world (1 / 2)))
  = control_outputs
      (after (@drive SpecControl.plain) (origin_world_later (1 / 2)))
  /\ outputs (after (@drive SpecControl.plain) (origin_world (1 / 2)))
     = outputs (after (@drive SpecControl.plain) (origin_world_later (1 / 2)))
  /\ outcome (@drive SpecControl.plain) (origin_world (1 / 2))
     = outcome (@drive SpecControl.plain) (origin_world_later (1 / 2)).
Proof.
  destruct (tick_deterministic_given_draw SpecControl.plain
              (origin_world (1 / 2)) (origin_world_later (1 / 2))
              eq_refl eq_refl) as (Hc & Ho).
  split; [exact Hc|]. apply Ho. reflexivity.
Defined.

(** C2: a tick calls the controller on the car's state and then the model
    with the steering command the controller just returned; a run of
    frames is a sequence of such ticks in which only the last can be cut
    short (by the controller raising), and a run of [n] frames that returns
    made exactly [n] of them, none skipped. *)
Theorem controller_then_model_every_tick (libs : ControlLibs) :
  (forall w : World, calls (emitted drive w) = tick_calls w)
  /\ (forall (frame : nat) (sim : Simulation.t) (w : World),
         calls (emitted (animate frame sim) w) = tick_calls w)
  /\ (forall (frame n : nat) (sim : Simulation.t) (w : World),
         in_order (calls (emitted (play frame n sim) w))
         /\ (outcome (play frame n sim) w = Ok tt ->
             whole_ticks (calls (emitted (play frame n sim) w))
             /\ List.length (calls (emitted (play frame n sim) w))
                = (2 * n)%nat)).
Proof.
  split; [|split].
  - intros w. destruct (drive_log w) as (new & Hl & Hc & _).
    rewrite (emitted_of_log _ _ _ Hl). exact Hc.
  - intros frame sim w.
    destruct (animate_log frame sim w) as (new & Hl & Hc & _).
    rewrite (emitted_of_log _ _ _ Hl). exact Hc.
  - intros frame n sim w.
    destruct (play_log n frame sim w) as (new & Hl & Ho & Hw).
    rewrite (emitted_of_log _ _ _ Hl). split; [exact Ho | exact Hw].
Qed.

(** C4: on the car [Car.__init__] builds, the controller written from the
    specification returns the steering law of section 4.2, stated on the
    three lists of the path and with relations of their own rather than
    with the functions the controller is written with.  The target is a
    sample, and no sample is nearer to the front axle; the cross-track
    error is the signed distance at the target; the command is the heading
    error (the difference of the two yaws, normalised), plus the angle
    [atan2 (k * cte) (ksoft + v)], plus the damping term, with the
    steering-rate term added, clamped to the steering bound.  The
    controller raises on a path without samples only.  The bound is 33
    degrees, every command is within it, and so is the steering angle the
    car stores after any number of frames. *)
Theorem steering_clamped_and_stored_within_bound
    (yaw_rate_of : R -> R -> R -> R) (throttle_force : R -> R) (steer_tol : R)
    (init_x init_y init_yaw : R) (px py pyaw : ref) (dt : R) :
  let c0 := Car_init init_x init_y init_yaw px py pyaw dt in
  let t := Car.tracker c0 in
  (forall (h : heap) (x y yaw v delta : R),
      let lx := deref h px in
      let ly := deref h py in
      let lyaw := deref h pyaw in
      let n := Nat.min (Nat.min (List.length lx) (List.length ly))
                       (List.length lyaw) in
      let fx := x + StanleyController.wheelbase t / 2 * cos yaw in
      let fy := y + StanleyController.wheelbase t / 2 * sin yaw in
      let dist := fun j : nat =>
        sqrt ((fx - nth j lx 0) * (fx - nth j lx 0)
              + (fy - nth j ly 0) * (fy - nth j ly 0)) in
      match SpecControl.stanley_control yaw_rate_of h t x y yaw v delta with
      | Ok (d, i, cte) =>
          (i < n)%nat
          /\ (forall j, (j < n)%nat -> dist i <= dist j)
          /\ cte = (fx - nth i lx 0) * sin (nth i lyaw 0)
                   - (fy - nth i ly 0) * cos (nth i lyaw 0)
          /\ (exists heading_error crosstrack_term : R,
                 normalised_difference (nth i lyaw 0) yaw heading_error
                 /\ polar_angle (StanleyController.k t * cte)
                      (StanleyController.ksoft t + v) crosstrack_term
                 /\ let new_angle :=
                      heading_error + crosstrack_term
                      + StanleyController.kyaw t
                        * yaw_rate_of v delta (StanleyController.wheelbase t) in
                    limited_to (StanleyController.max_steer t)
                      (new_angle
                       + StanleyController.ksteer t * (new_angle - delta))
                      d)
          /\ Rabs d <= StanleyController.max_steer t
      | Raise e => e = EmptyPathError /\ n = 0%nat
      end)
  /\ (forall (h : heap) (p : Path.t) (rng0 : nat -> R) (l : list event)
             (frame n : nat) (sim : Simulation.t),
         let w := after (@play (SpecControl.libs yaw_rate_of throttle_force
                                  steer_tol) frame n sim)
                    (mkWorld h c0 p rng0 l) in
         Rabs (Car.delta (car w)) <= Car.max_steer (car w)
         /\ Car.max_steer (car w) = radians 33).
Proof.
  cbv zeta. split.
  - intros h x y yaw v delta.
    pose proof (stanley_control_law yaw_rate_of h
                  (Car.tracker (Car_init init_x init_y init_yaw px py pyaw dt))
                  x y yaw v delta) as C.
    cbv zeta in C.
    assert (Hm : 0 <= StanleyController.max_steer
                        (Car.tracker
                           (Car_init init_x init_y init_yaw px py pyaw dt))).
    { simpl. pose proof radians_33_pos. lra. }
    destruct (SpecControl.stanley_control _ _ _ _ _ _ _ _) as [[[d i] cte]|e].
    + destruct C as (Hi & Hmin & Hcte & Hd).
      split; [exact Hi|]. split; [exact Hmin|]. split; [exact Hcte|].
      split.
      * eexists. eexists.
        split; [apply normalise_angle_difference|].
        split; [apply atan2_polar|].
        rewrite Hd. apply clamp_limited, Hm.
      * rewrite Hd. apply clamp_abs, Hm.
    + exact C.
  - intros h p rng0 l frame n sim.
    pose proof (play_steer_bounded
                  (SpecControl.libs yaw_rate_of throttle_force steer_tol) n
                  (spec_libs_clamp yaw_rate_of throttle_force steer_tol)
                  frame sim
                  (mkWorld h (Car_init init_x init_y init_yaw px py pyaw dt)
                     p rng0 l)
                  (Car_init_steer_bounded init_x init_y init_yaw px py pyaw dt))
      as (_ & _ & Hb).
    split; [exact Hb|].
    destruct (@play_frame
                (SpecControl.libs yaw_rate_of throttle_force steer_tol) n
                frame sim
                (mkWorld h (Car_init init_x init_y init_yaw px py pyaw dt)
                   p rng0 l)) as (_ & _ & Hk).
    unfold constants in Hk. simpl in Hk. congruence.
Qed.

(** C5: the controller of every car [Car.__init__] builds has softening
    constant 1, so at velocity 0 the denominator [ksoft + v] of the
    cross-track correction is 1, not 0.  The command the controller
    written from the specification returns at velocity 0 is the law with
    that quotient in it: the heading error, plus the arctangent of
    [k * cte / (ksoft + 0)], plus the damping term, with the steering-rate
    term added, clamped to the steering bound, so within 33 degrees; the
    controller raises on a path without samples only. *)
Theorem zero_velocity_denominator_nonzero
    (yaw_rate_of : R -> R -> R -> R)
    (init_x init_y init_yaw : R) (px py pyaw : ref) (dt : R) :
  let t := Car.tracker (Car_init init_x init_y init_yaw px py pyaw dt) in
  StanleyController.ksoft t + 0 = 1
  /\ StanleyController.ksoft t + 0 <> 0
  /\ (forall cte : R,
         atan2 (StanleyController.k t * cte) (StanleyController.ksoft t + 0)
         = atan (StanleyController.k t * cte / (StanleyController.ksoft t + 0)))
  /\ (forall (h : heap) (x y yaw delta : R),
         let lx := deref h px in
         let ly := deref h py in
         let lyaw := deref h pyaw in
         let n := Nat.min (Nat.min (List.length lx) (List.length ly))
                          (List.length lyaw) in
         match SpecControl.stanley_control yaw_rate_of h t x y yaw 0 delta with
         | Ok (d, i, cte) =>
             (i < n)%nat
             /\ (exists heading_error : R,
                    normalised_difference (nth i lyaw 0) yaw heading_error
                    /\ let new_angle :=
                         heading_error
                         + atan (StanleyController.k t * cte
                                 / (StanleyController.ksoft t + 0))
                         + StanleyController.kyaw t
                           * yaw_rate_of 0 delta (StanleyController.wheelbase t)
                       in
                       limited_to (radians 33)
                         (new_angle
                          + StanleyController.ksteer t * (new_angle - delta))
                         d)
             /\ Rabs d <= radians 33
         | Raise e => e = EmptyPathError /\ n = 0%nat
         end).
Proof.
  cbv zeta.
  split; [simpl; lra|]. split; [simpl; lra|].
  split; [intros cte; apply atan2_pos; simpl; lra|].
  intros h x y yaw delta.
  pose proof (stanley_control_law yaw_rate_of h
                (Car.tracker (Car_init init_x init_y init_yaw px py pyaw dt))
                x y yaw 0 delta) as C.
  cbv zeta in C.
  assert (Hm : 0 <= radians 33) by (pose proof radians_33_pos; lra).
  destruct (SpecControl.stanley_control _ _ _ _ _ _ _ _) as [[[d i] cte]|e].
  - destruct C as (Hi & _ & _ & Hd).
    split; [exact Hi|]. split.
    + eexists. split; [apply normalise_angle_difference|].
      rewrite Hd. rewrite atan2_pos by (simpl; lra).
      apply clamp_limited, Hm.
    + rewrite Hd. apply clamp_abs, Hm.
  - exact C.
Qed.

(** C7: the vehicle model written from the specification raises
    [InvalidSteeringError] exactly on a steering angle whose magnitude
    exceeds the bound by more than the tolerance, and otherwise returns the
    angle it received, unchanged. *)
Theorem model_rejects_oversteer_and_keeps_angle
    (throttle_force : R -> R) (steer_tol : R) (m : KinematicBicycleModel.t)
    (x y yaw v throttle delta : R) :
  match SpecControl.kinematic_model throttle_force steer_tol m
          x y yaw v throttle delta with
  | Ok (_, _, _, _, d, _) =>
      d = delta
      /\ Rabs delta <= KinematicBicycleModel.max_steer m + steer_tol
  | Raise e =>
      e = InvalidSteeringError
      /\ KinematicBicycleModel.max_steer m + steer_tol < Rabs delta
  end.
Proof.
  pose proof (kinematic_model_cases throttle_force steer_tol m
                x y yaw v throttle delta) as C.
  destruct (SpecControl.kinematic_model _ _ _ _ _ _ _ _ _)
    as [[[[[[x' y'] yaw'] v'] d] om]|e].
  - destruct C as (Hb & Hd & _). split; assumption.
  - exact C.
Qed.

(** C8: [main] builds the path once: the world it sets up holds the three
    lists the generator returned, at addresses the path, the car and its
    controller all hold, so that the car's samples are the path's; no frame
    changes a list, the path, or the references the car and its controller
    hold, so every sample read later is the one the generator returned. *)
Theorem path_never_mutated (libs : ControlLibs) (plib : PathLib) :
  (forall (rows : list (list cell)) (rng0 : nat -> R),
      match setup rows rng0 with
      | Ok w =>
          Path_init rows [] = Ok (path w, store w)
          /\ (exists x y px py pyaw curvature : list R,
                 float_columns (zip_star (tl rows)) = Ok [x; y]
                 /\ generate_cubic_spline x y 0.05
                    = Ok (px, py, pyaw, curvature)
                 /\ store w = [px; py; pyaw]
                 /\ deref (store w) (Path.px (path w)) = px
                 /\ deref (store w) (Path.py (path w)) = py
                 /\ deref (store w) (Path.pyaw (path w)) = pyaw)
          /\ (Car.px (car w), Car.py (car w), Car.pyaw (car w))
             = (Path.px (path w), Path.py (path w), Path.pyaw (path w))
          /\ (StanleyController.px (Car.tracker (car w)),
              StanleyController.py (Car.tracker (car w)),
              StanleyController.pyaw (Car.tracker (car w)))
             = (Path.px (path w), Path.py (path w), Path.pyaw (path w))
      | Raise _ => True
      end)
  /\ (forall (frame n : nat) (sim : Simulation.t) (w : World),
         let w' := after (play frame n sim) w in
         store w' = store w
         /\ path w' = path w
         /\ (Car.px (car w'), Car.py (car w'), Car.pyaw (car w'))
            = (Car.px (car w), Car.py (car w), Car.pyaw (car w))
         /\ Car.tracker (car w') = Car.tracker (car w)
         /\ (deref (store w') (Path.px (path w')),
             deref (store w') (Path.py (path w')),
             deref (store w') (Path.pyaw (path w')))
            = (deref (store w) (Path.px (path w)),
               deref (store w) (Path.py (path w)),
               deref (store w) (Path.pyaw (path w)))).
Proof.
  split.
  - intros rows rng0. unfold setup.
    destruct (Path_init rows []) as [[p h]|e] eqn:E; [|exact I].
    destruct (nth_error (deref h (Path.px p)) 0); [|exact I].
    destruct (nth_error (deref h (Path.py p)) 0); [|exact I].
    destruct (nth_error (deref h (Path.pyaw p)) 0); [|exact I].
    simpl. split; [reflexivity|]. split; [|auto].
    destruct (Path_init_allocates plib rows [] h p E)
      as (x & y & px & py & pyaw & c & Hf & Hg & Hh & Hp).
    exists x, y, px, py, pyaw, c.
    split; [exact Hf|]. split; [exact Hg|].
    simpl in Hh. split; [exact Hh|].
    rewrite Hh, Hp. simpl. auto.
  - intros frame n sim w. cbv zeta.
    destruct (play_frame n frame sim w) as (Hs & Hp & Hk).
    unfold constants in Hk. split; [exact Hs|]. split; [exact Hp|].
    split; [congruence|]. split; [congruence|].
    rewrite Hs, Hp. reflexivity.
Qed.

(** C9, as stated, fails: the throttle the model receives is not an input
    of the tick.  From one car, path and parameters, two ticks hand the
    model different throttles when the random generator differs, and each
    tick makes a draw of its own. *)
Lemma throttle_varies_with_generator :
  store (origin_world 0) = store (origin_world (1 / 2))
  /\ car (origin_world 0) = car (origin_world (1 / 2))
  /\ path (origin_world 0) = path (origin_world (1 / 2))
  /\ draws (emitted (@drive SpecControl.plain) (origin_world 0)) <> []
  /\ throttles (emitted (@drive SpecControl.plain) (origin_world 0))
     <> throttles (emitted (@drive SpecControl.plain) (origin_world (1 / 2))).
Proof.
  split; [reflexivity|]. split; [reflexivity|]. split; [reflexivity|].
  split.
  - destruct (@drive_log SpecControl.plain (origin_world 0))
      as (new & Hl & _ & Hd & _).
    rewrite (emitted_of_log _ _ _ Hl), Hd. discriminate.
  - unfold emitted. simpl List.length. simpl skipn.
    destruct (origin_tick 0) as (_ & _ & H0).
    destruct (origin_tick (1 / 2)) as (_ & _ & H1).
    cbv zeta in H0, H1. rewrite H0, H1. intros H.
    injection H as H. lra.
Qed.

(** C9, amended: [Car.drive] takes no throttle; every tick draws one value
    from the random generator, 150 plus 50 times its next value, and that
    value is the throttle the model receives when the controller returned;
    over a run of frames the throttles the model received are the values
    drawn, in order, but for a last draw after which the controller
    raised. *)
Theorem throttle_drawn_inside_tick (libs : ControlLibs) :
  (forall w : World,
      draws (emitted drive w) = [150 + (200 - 150) * rng w O]
      /\ throttles (emitted drive w)
         = (if is_ok (stanley_control (store w) (Car.tracker (car w))
                        (Car.x (car w)) (Car.y (car w)) (Car.yaw (car w))
                        (Car.v (car w)) (Car.delta (car w)))
            then [150 + (200 - 150) * rng w O] else [])
      /\ rng (after drive w) = (fun n => rng w (S n)))
  /\ (forall (frame n : nat) (sim : Simulation.t) (w : World),
         exists rest,
           draws (emitted (play frame n sim) w)
           = throttles (emitted (play frame n sim) w) ++ rest).
Proof.
  split.
  - intros w. destruct (drive_log w) as (new & Hl & _ & Hd & Ht).
    rewrite (emitted_of_log _ _ _ Hl), Hd, Ht, tick_throttles.
    repeat split. apply drive_rng.
  - intros frame n sim w.
    destruct (play_throttles n frame sim w) as (new & Hl & Hr).
    rewrite (emitted_of_log _ _ _ Hl). exact Hr.
Qed.

(** C10: [Car.__init__] sets the yaw rate field to 0.0 and no tick or frame
    assigns it; the last two values the model returns, steering angle and
    yaw rate, reach neither the car nor, through it, any later call of the
    controller: replacing them by anything leaves every run with the same
    car and the same outcome. *)
Theorem omega_never_updated (libs : ControlLibs) :
  (forall (init_x init_y init_yaw : R) (px py pyaw : ref) (dt : R),
      Car.omega (Car_init init_x init_y init_yaw px py pyaw dt) = 0.0)
  /\ (forall w : World, Car.omega (car (after drive w)) = Car.omega (car w))
  /\ (forall (init_x init_y init_yaw : R) (px py pyaw : ref) (dt : R)
             (h : heap) (p : Path.t) (rng0 : nat -> R) (l : list event)
             (frame n : nat) (sim : Simulation.t),
         Car.omega
           (car (after (play frame n sim)
                   (mkWorld h (Car_init init_x init_y init_yaw px py pyaw dt)
                      p rng0 l)))
         = 0.0)
  /\ (forall (g : R -> R -> R * R) (frame n : nat) (sim : Simulation.t)
             (w : World),
         car (after (@play (replace_tail libs g) frame n sim) w)
         = car (after (@play libs frame n sim) w)
         /\ outcome (@play (replace_tail libs g) frame n sim) w
            = outcome (@play libs frame n sim) w).
Proof.
  split; [reflexivity|]. split; [|split].
  - intros w. destruct (drive_frame w) as (_ & _ & Hk).
    unfold constants in Hk. congruence.
  - intros init_x init_y init_yaw px py pyaw dt h p rng0 l frame n sim.
    destruct (play_frame n frame sim
                (mkWorld h (Car_init init_x init_y init_yaw px py pyaw dt)
                   p rng0 l)) as (_ & _ & Hk).
    unfold constants in Hk. simpl in Hk. congruence.
  - intros g frame n sim w. apply play_discards_tail.
    unfold same_state. auto.
Qed.

(** ** Chord lengths and distinct waypoints *)

Lemma hypot_nonneg (dx dy : R) : 0 <= hypot dx dy.
Proof. unfold hypot. apply sqrt_pos. Qed.

Lemma hypot_zero (dx dy : R) : hypot dx dy = 0 -> dx = 0 /\ dy = 0.
Proof.
  unfold hypot. intros H. apply sqrt_eq_0 in H; [|nra]. split; nra.
Qed.

Lemma hypot_origin : hypot 0 0 = 0.
Proof.
  unfold hypot. replace (0 * 0 + 0 * 0) with 0 by ring. apply sqrt_0.
Qed.

Lemma total_chord_length_nonneg (pts : list (R * R)) :
  0 <= SpecPath.total_chord_length pts.
Proof.
  unfold SpecPath.total_chord_length.
  induction pts as [|p rest IH]; simpl; [lra|].
  destruct rest as [|q rest']; simpl; [lra|].
  pose proof (hypot_nonneg (fst q - fst p) (snd q - snd p)).
  simpl in IH. lra.
Qed.

Lemma total_chord_length_cons (p q : R * R) (rest : list (R * R)) :
  SpecPath.total_chord_length (p :: q :: rest)
  = hypot (fst q - fst p) (snd q - snd p)
    + SpecPath.total_chord_length (q :: rest).
Proof. reflexivity. Qed.

(** A zero total chord length means every waypoint is the first one. *)
Lemma chord_zero_all_head (rest : list (R * R)) :
  forall p : R * R,
    SpecPath.total_chord_length (p :: rest) = 0 ->
    forall q, In q rest -> q = p.
Proof.
  induction rest as [|q0 rest IH]; intros p H q Hq; [destruct Hq|].
  rewrite total_chord_length_cons in H.
  pose proof (hypot_nonneg (fst q0 - fst p) (snd q0 - snd p)) as Hh.
  pose proof (total_chord_length_nonneg (q0 :: rest)) as Ht.
  assert (H0 : hypot (fst q0 - fst p) (snd q0 - snd p) = 0) by lra.
  assert (H1 : SpecPath.total_chord_length (q0 :: rest) = 0) by lra.
  apply hypot_zero in H0. destruct H0 as (Hx & Hy).
  assert (E : q0 = p).
  { destruct q0 as [a b], p as [c d]. simpl in *. f_equal; lra. }
  destruct Hq as [<-|Hq]; [exact E|].
  rewrite <- E. apply (IH q0 H1 q Hq).
Qed.

Lemma all_head_chord_zero (rest : list (R * R)) :
  forall p : R * R,
    (forall q, In q rest -> q = p) ->
    SpecPath.total_chord_length (p :: rest) = 0.
Proof.
  induction rest as [|q0 rest IH]; intros p H; [reflexivity|].
  rewrite total_chord_length_cons.
  assert (E : q0 = p) by (apply H; left; reflexivity).
  subst q0. rewrite IH.
  - replace (fst p - fst p) with 0 by ring.
    replace (snd p - snd p) with 0 by ring.
    rewrite hypot_origin. ring.
  - intros q Hq. apply H. right. exact Hq.
Qed.

(** Fewer than two distinct waypoints means every waypoint is the first
    one. *)
Lemma few_distinct_all_head (p : R * R) (rest : list (R * R)) :
  (List.length (SpecPath.distinct_points (p :: rest)) < 2)%nat ->
  forall q, In q rest -> q = p.
Proof.
  unfold SpecPath.distinct_points. intros H q Hq.
  assert (Hp : In p (nodup SpecPath.point_eq_dec (p :: rest)))
    by (apply nodup_In; left; reflexivity).
  assert (Hq' : In q (nodup SpecPath.point_eq_dec (p :: rest)))
    by (apply nodup_In; right; exact Hq).
  destruct (nodup SpecPath.point_eq_dec (p :: rest)) as [|a [|b l]].
  - destruct Hp.
  - destruct Hp as [<-|[]]. destruct Hq' as [<-|[]]. reflexivity.
  - simpl in H. lia.
Qed.

Lemma all_head_few_distinct (p : R * R) (rest : list (R * R)) :
  (forall q, In q rest -> q = p) ->
  (List.length (SpecPath.distinct_points (p :: rest)) < 2)%nat.
Proof.
  unfold SpecPath.distinct_points. intros H.
  pose proof (NoDup_nodup SpecPath.point_eq_dec (p :: rest)) as Hn.
  assert (Hall : forall q, In q (nodup SpecPath.point_eq_dec (p :: rest))
                           -> q = p).
  { intros q Hq. apply nodup_In in Hq. destruct Hq as [<-|Hq]; auto. }
  destruct (nodup SpecPath.point_eq_dec (p :: rest)) as [|a [|b l]];
    simpl; try lia.
  exfalso.
  assert (Ea : a = p) by (apply Hall; left; reflexivity).
  assert (Eb : b = p) by (apply Hall; right; left; reflexivity).
  inversion Hn as [|? ? Hnot _]. apply Hnot. left. congruence.
Qed.

(** The two degenerate conditions of the generator are one condition. *)
Lemma few_distinct_iff_chord_zero (pts : list (R * R)) :
  (List.length (SpecPath.distinct_points pts) < 2)%nat
  <-> SpecPath.total_chord_length pts = 0.
Proof.
  destruct pts as [|p rest].
  - split; intros _; [reflexivity | simpl; lia].
  - split; intros H.
    + apply all_head_chord_zero, few_distinct_all_head, H.
    + apply all_head_few_distinct, chord_zero_all_head, H.
Qed.

(** Two waypoints that differ make two distinct points. *)
Lemma two_distinct_points (pts : list (R * R)) (p q : R * R) :
  In p pts -> In q pts -> p <> q ->
  (2 <= List.length (SpecPath.distinct_points pts))%nat.
Proof.
  intros Hp Hq Hne.
  destruct (Nat.lt_ge_cases (List.length (SpecPath.distinct_points pts)) 2)
    as [Hlt|Hge]; [|exact Hge].
  exfalso. destruct pts as [|h rest]; [destruct Hp|].
  pose proof (few_distinct_all_head h rest Hlt) as Hall.
  assert (Ep : p = h) by (destruct Hp as [<-|Hp]; auto).
  assert (Eq : q = h) by (destruct Hq as [<-|Hq]; auto).
  congruence.
Qed.

(** ** The sampling grid *)

Section Grid.

Variables total ds : R.
Hypothesis total_nonneg : 0 <= total.
Hypothesis ds_pos : 0 < ds.

(** The number of grid values: one more than the whole steps that fit. *)
Local Notation "'count'" := (SpecPath.sample_count total ds).

Lemma quotient_nonneg : 0 <= total / ds.
Proof.
  unfold Rdiv. apply Rmult_le_pos; [assumption|].
  left. apply Rinv_0_lt_compat. assumption.
Qed.

Lemma up_quotient_pos : (0 < up (total / ds))%Z.
Proof.
  destruct (archimed (total / ds)) as (Hgt & _).
  pose proof quotient_nonneg as Hq.
  apply lt_IZR. lra.
Qed.

Lemma count_floor : Z.of_nat count = (Int_part (total / ds) + 1)%Z.
Proof.
  unfold SpecPath.sample_count, Int_part. pose proof up_quotient_pos. lia.
Qed.

(** The loop test at step [j] succeeds exactly below [count]. *)
Lemma step_within (j : nat) : INR j * ds <= total <-> (j < count)%nat.
Proof.
  destruct (archimed (total / ds)) as (Hgt & Hle).
  pose proof up_quotient_pos as Hup.
  assert (Hdiv : INR j * ds <= total <-> INR j <= total / ds).
  { split; intros H.
    - apply Rmult_le_reg_r with ds; [assumption|].
      unfold Rdiv. rewrite Rmult_assoc, Rinv_l; lra.
    - apply Rmult_le_compat_r with (r := ds) in H; [|lra].
      unfold Rdiv in H. rewrite Rmult_assoc, Rinv_l in H; lra. }
  rewrite Hdiv. unfold SpecPath.sample_count. rewrite INR_IZR_INZ.
  split; intros H.
  - assert (Hlt : (Z.of_nat j < up (total / ds))%Z)
      by (apply lt_IZR; lra).
    lia.
  - assert (Hlt : (Z.of_nat j + 1 <= up (total / ds))%Z) by lia.
    apply IZR_le in Hlt. rewrite plus_IZR in Hlt. lra.
Qed.

(** The loop from step [i], with any fuel, emits the multiples of [ds]
    from the [i]-th on, as far as the fuel and the test allow. *)
Lemma arc_scan_steps (fuel : nat) :
  forall i : nat,
    SpecPath.arc_scan fuel (INR i * ds) total ds
    = map (fun j => INR j * ds) (seq i (Nat.min fuel (count - i))).
Proof.
  induction fuel as [|fuel IH]; intros i; [reflexivity|].
  simpl SpecPath.arc_scan.
  destruct (Rle_dec (INR i * ds) total) as [H|H].
  - apply step_within in H.
    replace (Nat.min (S fuel) (count - i))
      with (S (Nat.min fuel (count - S i))) by lia.
    simpl. f_equal.
    replace (INR i * ds + ds) with (INR (S i) * ds)
      by (rewrite S_INR; ring).
    apply IH.
  - assert (Hge : (count <= i)%nat).
    { destruct (Nat.lt_ge_cases i count) as [Hlt|Hge]; [|exact Hge].
      exfalso. apply H. apply step_within. exact Hlt. }
    replace (count - i)%nat with 0%nat by lia.
    rewrite Nat.min_0_r. reflexivity.
Qed.

(** With the fuel of [arc_samples], or any more, the loop ends by its own
    test, having emitted [count] values. *)
Lemma arc_scan_enough (fuel : nat) :
  (count <= fuel)%nat ->
  SpecPath.arc_scan fuel 0 total ds
  = map (fun j => INR j * ds) (seq 0 count).
Proof.
  intros H. replace 0 with (INR 0 * ds) at 1 by (simpl; ring).
  rewrite arc_scan_steps. f_equal. f_equal. lia.
Qed.

Lemma arc_samples_steps :
  SpecPath.arc_samples total ds = map (fun j => INR j * ds) (seq 0 count).
Proof.
  unfold SpecPath.arc_samples, SpecPath.arc_fuel.
  apply arc_scan_enough. lia.
Qed.

Lemma arc_samples_length :
  Z.of_nat (List.length (SpecPath.arc_samples total ds))
  = (Int_part (total / ds) + 1)%Z.
Proof.
  rewrite arc_samples_steps, length_map, length_seq. apply count_floor.
Qed.

Lemma arc_samples_nth (i : nat) :
  (i < List.length (SpecPath.arc_samples total ds))%nat ->
  nth i (SpecPath.arc_samples total ds) 0 = INR i * ds.
Proof.
  rewrite arc_samples_steps, length_map, length_seq. intros H.
  rewrite (nth_indep _ 0 (INR 0 * ds))
    by (rewrite length_map, length_seq; exact H).
  pose proof (map_nth (fun j => INR j * ds) (seq 0 count) 0%nat i) as Hm.
  cbv beta in Hm. rewrite Hm, seq_nth by exact H. reflexivity.
Qed.

Lemma arc_samples_spacing (i : nat) :
  (S i < List.length (SpecPath.arc_samples total ds))%nat ->
  nth (S i) (SpecPath.arc_samples total ds) 0
  - nth i (SpecPath.arc_samples total ds) 0 = ds.
Proof.
  intros H. rewrite !arc_samples_nth by lia. rewrite S_INR. ring.
Qed.

Lemma arc_samples_within (s : R) :
  In s (SpecPath.arc_samples total ds) -> 0 <= s <= total.
Proof.
  rewrite arc_samples_steps. intros H.
  apply in_map_iff in H. destruct H as (j & <- & Hj).
  apply in_seq in Hj. split.
  - apply Rmult_le_pos; [apply pos_INR | lra].
  - apply step_within. lia.
Qed.

End Grid.

(** ** The grid on a unit chord *)

Lemma up_of_int (z : Z) : up (IZR z) = (z + 1)%Z.
Proof.
  symmetry. apply tech_up; rewrite plus_IZR; lra.
Qed.

(** Steps of one half reach the end of a unit chord: the end value is a
    grid value. *)
Example arc_samples_reach_end :
  SpecPath.arc_samples 1 (1 / 2) = [0; 1 / 2; 1].
Proof.
  rewrite arc_samples_steps by lra.
  unfold SpecPath.sample_count.
  replace (1 / (1 / 2)) with (IZR 2) by (simpl; field).
  rewrite up_of_int. simpl.
  f_equal; [lra|]. f_equal; [lra|]. f_equal. lra.
Qed.

(** Steps of two thirds do not: the grid stops at the last step within
    the chord. *)
Example arc_samples_stop_short :
  SpecPath.arc_samples 1 (2 / 3) = [0; 2 / 3].
Proof.
  rewrite arc_samples_steps by lra.
  unfold SpecPath.sample_count.
  replace (up (1 / (2 / 3))) with 2%Z.
  - simpl. f_equal; [lra|]. f_equal. lra.
  - apply tech_up; replace (1 / (2 / 3)) with (3 / 2) by field; lra.
Qed.

(** C3: on at least two distinct waypoints and a positive sampling interval
    the generator written from the specification returns the splines
    evaluated on a grid of floor(total chord length / ds) + 1 arc-length
    values, which start at 0, are spaced exactly [ds] apart (the final
    segment included) and are the same for any larger number of loop
    steps. *)
Theorem path_sample_count_and_spacing
    (fit : list R -> list R -> SpecPath.Spline) (x y : list R) (ds : R) :
  (2 <= List.length (SpecPath.distinct_points (combine x y)))%nat ->
  0 < ds ->
  let total := SpecPath.total_chord_length (combine x y) in
  let grid := SpecPath.arc_samples total ds in
  exists px py pyaw curvature : list R,
    SpecPath.generate_cubic_spline fit x y ds = Ok (px, py, pyaw, curvature)
    /\ px = map (SpecPath.value (fit (SpecPath.knots (combine x y)) x)) grid
    /\ py = map (SpecPath.value (fit (SpecPath.knots (combine x y)) y)) grid
    /\ Z.of_nat (List.length px) = (Int_part (total / ds) + 1)%Z
    /\ List.length py = List.length px
    /\ List.length pyaw = List.length px
    /\ nth 0 grid 0 = 0
    /\ (forall i : nat,
           (S i < List.length grid)%nat -> nth (S i) grid 0 - nth i grid 0 = ds)
    /\ (forall s : R, In s grid -> 0 <= s <= total)
    /\ (forall fuel : nat,
           (SpecPath.arc_fuel total ds <= fuel)%nat ->
           SpecPath.arc_scan fuel 0 total ds = grid).
Proof.
  intros Hdistinct Hds. cbv zeta.
  pose proof (total_chord_length_nonneg (combine x y)) as Hnn.
  assert (Hne : SpecPath.total_chord_length (combine x y) <> 0).
  { intros H0. apply few_distinct_iff_chord_zero in H0. lia. }
  unfold SpecPath.generate_cubic_spline.
  destruct (Nat.ltb_spec (List.length (SpecPath.distinct_points (combine x y)))
              2) as [Hlt|_]; [lia|].
  destruct (Req_dec_T (SpecPath.total_chord_length (combine x y)) 0)
    as [H0|_]; [contradiction|].
  do 4 eexists. split; [reflexivity|].
  rewrite !length_map.
  split; [reflexivity|]. split; [reflexivity|].
  split; [apply arc_samples_length; assumption|].
  split; [reflexivity|]. split; [reflexivity|].
  split.
  { replace 0 with (INR 0 * ds) at 2 by (simpl; ring).
    apply (arc_samples_nth _ _ Hnn Hds 0).
    pose proof (arc_samples_length _ _ Hnn Hds) as Hl.
    pose proof (base_Int_part
                  (SpecPath.total_chord_length (combine x y) / ds)) as (Hb & _).
    pose proof (quotient_nonneg _ _ Hnn Hds) as Hq.
    pose proof (up_quotient_pos _ _ Hnn Hds) as Hup.
    unfold Int_part in Hl. lia. }
  split; [intros i Hi; apply arc_samples_spacing; assumption|].
  split; [intros s Hs; apply (arc_samples_within _ _ Hnn Hds), Hs|].
  intros fuel Hfuel.
  rewrite (arc_samples_steps _ _ Hnn Hds).
  apply arc_scan_enough; try assumption.
  unfold SpecPath.arc_fuel in Hfuel. lia.
Qed.

(** C3 at work: two waypoints one unit apart on the x axis, sampled at the
    interval [Path.__init__] uses. *)
Lemma path_sample_count_and_spacing_witness :
  let total := SpecPath.total_chord_length (combine [0; 1] [0; 0]) in
  let grid := SpecPath.arc_samples total 0.05 in
  exists px py pyaw curvature : list R,
    SpecPath.generate_cubic_spline line_fit [0; 1] [0; 0] 0.05
    = Ok (px, py, pyaw, curvature)
    /\ px = map (SpecPath.value
                   (line_fit (SpecPath.knots (combine [0; 1] [0; 0])) [0; 1])) grid
    /\ py = map (SpecPath.value
                   (line_fit (SpecPath.knots (combine [0; 1] [0; 0])) [0; 0])) grid
    /\ Z.of_nat (List.length px) = (Int_part (total / 0.05) + 1)%Z
    /\ List.length py = List.length px
    /\ List.length pyaw = List.length px
    /\ nth 0 grid 0 = 0
    /\ (forall i : nat,
           (S i < List.length grid)%nat ->
           nth (S i) grid 0 - nth i grid 0 = 0.05)
    /\ (forall s : R, In s grid -> 0 <= s <= total)
    /\ (forall fuel : nat,
           (SpecPath.arc_fuel total 0.05 <= fuel)%nat ->
           SpecPath.arc_scan fuel 0 total 0.05 = grid).
Proof.
  apply (path_sample_count_and_spacing line_fit [0; 1] [0; 0] 0.05).
  - apply (two_distinct_points _ (0, 0) (1, 0)); simpl; auto.
    intros E. injection E as E. lra.
  - lra.
Defined.

(** C6: the generator written from the specification raises, and then
    [DegenerateInputError], exactly when the waypoints have fewer than two
    distinct points or a zero total chord length, which is one condition;
    on every other input it returns. *)
Theorem generator_fails_exactly_on_degenerate_input
    (fit : list R -> list R -> SpecPath.Spline) (x y : list R) (ds : R) :
  let pts := combine x y in
  match SpecPath.generate_cubic_spline fit x y ds with
  | Raise e =>
      e = DegenerateInputError
      /\ ((List.length (SpecPath.distinct_points pts) < 2)%nat
          \/ SpecPath.total_chord_length pts = 0)
  | Ok _ =>
      (2 <= List.length (SpecPath.distinct_points pts))%nat
      /\ SpecPath.total_chord_length pts <> 0
  end
  /\ ((List.length (SpecPath.distinct_points pts) < 2)%nat
      <-> SpecPath.total_chord_length pts = 0).
Proof.
  cbv zeta. split; [|apply few_distinct_iff_chord_zero].
  unfold SpecPath.generate_cubic_spline.
  destruct (Nat.ltb_spec (List.length (SpecPath.distinct_points (combine x y)))
              2) as [Hlt|Hge]; [auto|].
  destruct (Req_dec_T (SpecPath.total_chord_length (combine x y)) 0)
    as [H0|Hne]; auto.
Qed.

(** * Further properties of animate.py *)

(** ** Ticks that raise *)

(** X1: when the controller raises, [Car.drive] raises the same exception
    and leaves the car, the lists and the path as they were; the throttle
    was already drawn, so the random generator is one value further, and
    the model was not called. *)
Theorem drive_controller_raises (libs : ControlLibs) (w : World) (e : error) :
  stanley_control (store w) (Car.tracker (car w)) (Car.x (car w))
    (Car.y (car w)) (Car.yaw (car w)) (Car.v (car w)) (Car.delta (car w))
  = Raise e ->
  outcome drive w = Raise e
  /\ car (after drive w) = car w
  /\ store (after drive w) = store w
  /\ path (after drive w) = path w
  /\ rng (after drive w) = (fun n => rng w (S n))
  /\ emitted drive w
     = [EvUniform 150 200 (150 + (200 - 150) * rng w O);
        EvStanley (Car.x (car w)) (Car.y (car w)) (Car.yaw (car w))
          (Car.v (car w)) (Car.delta (car w)) (Raise e)].
Proof.
  intros Hs.
  assert (Hl : log (after drive w)
               = log w ++ [EvUniform 150 200 (150 + (200 - 150) * rng w O);
                           EvStanley (Car.x (car w)) (Car.y (car w))
                             (Car.yaw (car w)) (Car.v (car w))
                             (Car.delta (car w)) (Raise e)]).
  { unfold after. rewrite drive_eq. cbv zeta. rewrite Hs. simpl.
    rewrite <- app_assoc. reflexivity. }
  rewrite (emitted_of_log _ _ _ Hl).
  unfold after, outcome. rewrite drive_eq. cbv zeta. rewrite Hs. simpl.
  repeat split; reflexivity.
Qed.

(** X1 at work: on a heap without lists the controller written from the
    specification has no sample and raises [EmptyPathError]. *)
Lemma drive_controller_raises_witness :
  outcome (@drive SpecControl.plain) (empty_world 0) = Raise EmptyPathError
  /\ car (after (@drive SpecControl.plain) (empty_world 0))
     = car (empty_world 0)
  /\ store (after (@drive SpecControl.plain) (empty_world 0))
     = store (empty_world 0)
  /\ path (after (@drive SpecControl.plain) (empty_world 0))
     = path (empty_world 0)
  /\ rng (after (@drive SpecControl.plain) (empty_world 0))
     = (fun n => rng (empty_world 0) (S n))
  /\ emitted (@drive SpecControl.plain) (empty_world 0)
     = [EvUniform 150 200 (150 + (200 - 150) * rng (empty_world 0) O);
        EvStanley (Car.x (car (empty_world 0))) (Car.y (car (empty_world 0)))
          (Car.yaw (car (empty_world 0))) (Car.v (car (empty_world 0)))
          (Car.delta (car (empty_world 0))) (Raise EmptyPathError)].
Proof.
  apply (drive_controller_raises SpecControl.plain (empty_world 0)
           EmptyPathError).
  reflexivity.
Defined.

(** X2: when the controller returned and the model raises, [Car.drive]
    raises the same exception with the car half updated: the steering
    command, the target index and the cross-track error are the new ones,
    the pose and the velocity the old ones, and the print did not happen. *)
Theorem drive_model_raises (libs : ControlLibs) (w : World)
    (d : R) (tid : nat) (cte : R) (e : error) :
  stanley_control (store w) (Car.tracker (car w)) (Car.x (car w))
    (Car.y (car w)) (Car.yaw (car w)) (Car.v (car w)) (Car.delta (car w))
  = Ok (d, tid, cte) ->
  kinematic_model (Car.kbm (car w)) (Car.x (car w)) (Car.y (car w))
    (Car.yaw (car w)) (Car.v (car w)) (150 + (200 - 150) * rng w O) d
  = Raise e ->
  let c' := car (after drive w) in
  outcome drive w = Raise e
  /\ (Car.delta c', Car.target_id c', Car.crosstrack_error c')
     = (d, Some tid, Some cte)
  /\ (Car.x c', Car.y c', Car.yaw c', Car.v c')
     = (Car.x (car w), Car.y (car w), Car.yaw (car w), Car.v (car w))
  /\ c' = Car.set_control (car w) d tid cte
  /\ (forall ev, In ev (emitted drive w) ->
                 match ev with EvPrint _ => False | _ => True end).
Proof.
  intros Hs Hk. cbv zeta.
  assert (Hl : log (after drive w)
               = log w ++ [EvUniform 150 200 (150 + (200 - 150) * rng w O);
                           EvStanley (Car.x (car w)) (Car.y (car w))
                             (Car.yaw (car w)) (Car.v (car w))
                             (Car.delta (car w)) (Ok (d, tid, cte));
                           EvKbm (Car.x (car w)) (Car.y (car w))
                             (Car.yaw (car w)) (Car.v (car w))
                             (150 + (200 - 150) * rng w O) d (Raise e)]).
  { unfold after. rewrite drive_eq. cbv zeta. unfold drawn.
    rewrite Hs. cbv beta iota. rewrite Hk. simpl.
    rewrite <- !app_assoc. reflexivity. }
  rewrite (emitted_of_log _ _ _ Hl).
  unfold after, outcome. rewrite drive_eq. cbv zeta. unfold drawn.
  rewrite Hs. cbv beta iota. rewrite Hk. simpl.
  repeat split; try reflexivity.
  intros ev [<-|[<-|[<-|[]]]]; exact I.
Qed.

(** X2 at work, with a model that rejects every command. *)
Lemma drive_model_raises_witness :
  let w := origin_world 0 in
  let c' := car (after (@drive rejecting_libs) w) in
  outcome (@drive rejecting_libs) w = Raise InvalidSteeringError
  /\ (Car.delta c', Car.target_id c', Car.crosstrack_error c')
     = (0, Some 0%nat, Some 0)
  /\ (Car.x c', Car.y c', Car.yaw c', Car.v c')
     = (Car.x (car w), Car.y (car w), Car.yaw (car w), Car.v (car w))
  /\ c' = Car.set_control (car w) 0 0%nat 0
  /\ (forall ev, In ev (emitted (@drive rejecting_libs) w) ->
                 match ev with EvPrint _ => False | _ => True end).
Proof.
  apply (drive_model_raises rejecting_libs (origin_world 0) 0 0%nat 0
           InvalidSteeringError).
  - reflexivity.
  - reflexivity.
Defined.

(** ** One frame, unfolded *)

Lemma animate_eq (libs : ControlLibs) (frame : nat) (sim : Simulation.t)
    (w : World) :
  animate frame sim w =
  let c := car w in
  let thr := drawn w in
  let rs := stanley_control (store w) (Car.tracker c) (Car.x c) (Car.y c)
              (Car.yaw c) (Car.v c) (Car.delta c) in
  let rng' := fun n => rng w (S n) in
  let l1 := log w ++ [EvCamera (Car.x c) (Car.y c);
                      EvUniform 150 200 thr;
                      EvStanley (Car.x c) (Car.y c) (Car.yaw c) (Car.v c)
                        (Car.delta c) rs] in
  match rs with
  | Raise e => (Raise e, mkWorld (store w) c (path w) rng' l1)
  | Ok (d, tid, cte) =>
      let c1 := Car.set_control c d tid cte in
      let rk := kinematic_model (Car.kbm c) (Car.x c) (Car.y c) (Car.yaw c)
                  (Car.v c) thr d in
      let l2 := l1 ++ [EvKbm (Car.x c) (Car.y c) (Car.yaw c) (Car.v c)
                         thr d rk] in
      match rk with
      | Raise e => (Raise e, mkWorld (store w) c1 (path w) rng' l2)
      | Ok (x', y', yaw', v', _, _) =>
          let c2 := Car.set_pose c1 x' y' yaw' v' in
          let l3 := l2 ++ [EvPrint (Some cte); EvPlotCar x' y' yaw' d] in
          match nth_error (deref (store w) (Path.px (path w))) tid,
                nth_error (deref (store w) (Path.py (path w))) tid with
          | Some tx, Some ty =>
              (Ok tt, mkWorld (store w) c2 (path w) rng'
                        (l3 ++ [EvTarget tx ty; EvLabel frame x' y' v']))
          | _, _ =>
              (Raise IndexError, mkWorld (store w) c2 (path w) rng' l3)
          end
      end
  end.
Proof.
  unfold animate, bind, self, emit, the_path. cbn [fst snd car store path
    rng log].
  rewrite drive_eq. cbv zeta. unfold drawn. cbn [car store path rng log].
  destruct (stanley_control _ _ _ _ _ _ _) as [[[d tid] cte]|e].
  - destruct (kinematic_model _ _ _ _ _ _ _)
      as [[[[[[x' y'] yaw'] v'] d'] om']|e].
    + cbn [fst snd car store path rng log].
      change (Car.target_id
                (Car.set_pose (Car.set_control (car w) d tid cte)
                   x' y' yaw' v'))
        with (Some tid).
      unfold index, bind, the_heap, raise, ret.
      cbn [fst snd car store path rng log].
      destruct (nth_error (deref (store w) (Path.px (path w))) tid);
        cbn [fst snd car store path rng log].
      * destruct (nth_error (deref (store w) (Path.py (path w))) tid);
          cbn [fst snd car store path rng log];
          repeat rewrite <- app_assoc; reflexivity.
      * repeat rewrite <- app_assoc. reflexivity.
    + cbn [fst snd car store path rng log].
      repeat rewrite <- app_assoc. reflexivity.
  - cbn [fst snd car store path rng log].
    repeat rewrite <- app_assoc. reflexivity.
Qed.

(** ** How a frame ends and what it draws *)

(** X3: a frame that returns had its tick return, and left the target
    index of the car set to the index the controller just returned, an
    index of both the x and the y list of the path.  When the tick of a
    frame raises, the frame raises the same exception: the car is as the
    failed tick left it, and neither the car, the target nor the label is
    drawn. *)
Theorem animate_returns_with_target_on_path (libs : ControlLibs)
    (frame : nat) (sim : Simulation.t) (w : World) :
  let c := car w in
  let rs := stanley_control (store w) (Car.tracker c) (Car.x c) (Car.y c)
              (Car.yaw c) (Car.v c) (Car.delta c) in
  let rk := fun d => kinematic_model (Car.kbm c) (Car.x c) (Car.y c)
                       (Car.yaw c) (Car.v c)
                       (150 + (200 - 150) * rng w O) d in
  let px := deref (store w) (Path.px (path w)) in
  let py := deref (store w) (Path.py (path w)) in
  (outcome (animate frame sim) w = Ok tt ->
   exists d tid cte,
     rs = Ok (d, tid, cte)
     /\ is_ok (rk d) = true
     /\ Car.target_id (car (after (animate frame sim) w)) = Some tid
     /\ (tid < List.length px)%nat
     /\ (tid < List.length py)%nat)
  /\ (forall e : error,
         outcome drive w = Raise e ->
         outcome (animate frame sim) w = Raise e
         /\ drawings (emitted (animate frame sim) w) = []
         /\ car (after (animate frame sim) w) = car (after drive w)).
Proof.
  cbv zeta. split.
  - unfold outcome, after. rewrite animate_eq. cbv zeta. unfold drawn.
    destruct (stanley_control _ _ _ _ _ _ _) as [[[d tid] cte]|e];
      [|discriminate].
    destruct (kinematic_model _ _ _ _ _ _ _)
      as [[[[[[x' y'] yaw'] v'] d'] om']|e] eqn:Hk; [|discriminate].
    destruct (nth_error (deref (store w) (Path.px (path w))) tid)
      as [tx|] eqn:Hx; [|discriminate].
    destruct (nth_error (deref (store w) (Path.py (path w))) tid)
      as [ty|] eqn:Hy; [|discriminate].
    cbn [fst snd car]. intros _.
    exists d, tid, cte. rewrite Hk. repeat split.
    + apply nth_error_Some. rewrite Hx. discriminate.
    + apply nth_error_Some. rewrite Hy. discriminate.
  - intros e.
    assert (Hlog : forall new,
               log (after (animate frame sim) w) = log w ++ new ->
               emitted (animate frame sim) w = new)
      by (intros new; apply emitted_of_log).
    revert Hlog.
    unfold outcome, after. rewrite animate_eq, drive_eq. cbv zeta.
    destruct (stanley_control _ _ _ _ _ _ _) as [[[d tid] cte]|e'].
    + destruct (kinematic_model _ _ _ _ _ _ _)
        as [[[[[[x' y'] yaw'] v'] d'] om']|e'']; [discriminate|].
      cbn [fst snd car log]. intros Hlog He.
      split; [exact He|]. split; [|reflexivity].
      rewrite (Hlog _ ltac:(rewrite <- app_assoc; reflexivity)).
      reflexivity.
    + cbn [fst snd car log]. intros Hlog He.
      split; [exact He|]. split; [|reflexivity].
      rewrite (Hlog _ eq_refl). reflexivity.
Qed.

(** X4: a frame that returns made, in this order: the camera centred on
    the car's position before the tick; the draw, the controller call and
    the model call of the tick; the print of the cross-track error just
    returned; the car drawn at the pose the model returned with the
    steering command the controller returned; the target drawn at the path
    sample of the target index just returned; the label with the frame
    number and the new position and velocity. *)
Theorem animate_trace (libs : ControlLibs) (frame : nat) (sim : Simulation.t)
    (w : World) :
  outcome (animate frame sim) w = Ok tt ->
  let c := car w in
  let thr := 150 + (200 - 150) * rng w O in
  exists d tid cte x' y' yaw' v' d' om' tx ty,
    stanley_control (store w) (Car.tracker c) (Car.x c) (Car.y c)
      (Car.yaw c) (Car.v c) (Car.delta c) = Ok (d, tid, cte)
    /\ kinematic_model (Car.kbm c) (Car.x c) (Car.y c) (Car.yaw c) (Car.v c)
         thr d = Ok (x', y', yaw', v', d', om')
    /\ nth_error (deref (store w) (Path.px (path w))) tid = Some tx
    /\ nth_error (deref (store w) (Path.py (path w))) tid = Some ty
    /\ emitted (animate frame sim) w
       = [EvCamera (Car.x c) (Car.y c);
          EvUniform 150 200 thr;
          EvStanley (Car.x c) (Car.y c) (Car.yaw c) (Car.v c) (Car.delta c)
            (Ok (d, tid, cte));
          EvKbm (Car.x c) (Car.y c) (Car.yaw c) (Car.v c) thr d
            (Ok (x', y', yaw', v', d', om'));
          EvPrint (Some cte);
          EvPlotCar x' y' yaw' d;
          EvTarget tx ty;
          EvLabel frame x' y' v']
    /\ car (after (animate frame sim) w)
       = Car.set_pose (Car.set_control c d tid cte) x' y' yaw' v'.
Proof.
  intros Hok. cbv zeta.
  assert (Hlog : forall new,
             log (after (animate frame sim) w) = log w ++ new ->
             emitted (animate frame sim) w = new)
    by (intros new; apply emitted_of_log).
  revert Hok Hlog. unfold outcome, after. rewrite animate_eq. cbv zeta.
  unfold drawn.
  destruct (stanley_control _ _ _ _ _ _ _) as [[[d tid] cte]|e];
    [|discriminate].
  destruct (kinematic_model _ _ _ _ _ _ _)
    as [[[[[[x' y'] yaw'] v'] d'] om']|e] eqn:Hk; [|discriminate].
  destruct (nth_error (deref (store w) (Path.px (path w))) tid) as [tx|]
    eqn:Hx; [|discriminate].
  destruct (nth_error (deref (store w) (Path.py (path w))) tid) as [ty|]
    eqn:Hy; [|discriminate].
  cbn [fst snd car log]. intros _ Hlog.
  exists d, tid, cte, x', y', yaw', v', d', om', tx, ty.
  split; [reflexivity|]. split; [exact Hk|].
  split; [exact Hx|]. split; [exact Hy|].
  split; [|reflexivity].
  apply Hlog. repeat rewrite <- app_assoc. reflexivity.
Qed.

(** On the one-sample path the target is sample 0, so a frame returns. *)
Lemma origin_target (u : R) :
  Car.target_id (car (after (@drive SpecControl.plain) (origin_world u)))
  = Some 0%nat.
Proof.
  destruct (origin_tick u) as (_ & Hok & _). revert Hok.
  unfold after, outcome. rewrite drive_eq. cbv zeta.
  set (c := car (origin_world u)).
  pose proof (stanley_control_cases
                (fun v delta wheelbase => v / wheelbase * tan delta)
                origin_heap (Car.tracker c) (Car.x c) (Car.y c) (Car.yaw c)
                (Car.v c) (Car.delta c)) as Hs.
  change (@stanley_control SpecControl.plain) with
    (SpecControl.stanley_control
       (fun v delta wheelbase => v / wheelbase * tan delta)).
  change (store (origin_world u)) with origin_heap.
  destruct (SpecControl.stanley_control _ _ _ _ _ _ _ _) as [[[d tid] cte]|e];
    [|discriminate].
  destruct Hs as (_ & Ht & _). cbv in Ht. injection Ht as <-.
  destruct (kinematic_model _ _ _ _ _ _ _)
    as [[[[[[x' y'] yaw'] v'] d'] om']|e]; [|discriminate].
  reflexivity.
Qed.

Lemma origin_frame_ok (frame : nat) (sim : Simulation.t) (u : R) :
  outcome (@animate SpecControl.plain frame sim) (origin_world u) = Ok tt.
Proof.
  rewrite animate_outcome. destruct (origin_tick u) as (_ & Hok & _).
  rewrite Hok. unfold frame_outcome. rewrite origin_target. reflexivity.
Qed.

(** X4 at work: the first frame on the one-sample path, with the
    controller and the model written from the specification. *)
Lemma animate_trace_witness :
  let w := origin_world 0 in
  let c := car w in
  let thr := 150 + (200 - 150) * rng w O in
  exists d tid cte x' y' yaw' v' d' om' tx ty,
    @stanley_control SpecControl.plain (store w) (Car.tracker c) (Car.x c)
      (Car.y c) (Car.yaw c) (Car.v c) (Car.delta c) = Ok (d, tid, cte)
    /\ @kinematic_model SpecControl.plain (Car.kbm c) (Car.x c) (Car.y c)
         (Car.yaw c) (Car.v c) thr d = Ok (x', y', yaw', v', d', om')
    /\ nth_error (deref (store w) (Path.px (path w))) tid = Some tx
    /\ nth_error (deref (store w) (Path.py (path w))) tid = Some ty
    /\ emitted (@animate SpecControl.plain 0 Simulation_init) w
       = [EvCamera (Car.x c) (Car.y c);
          EvUniform 150 200 thr;
          EvStanley (Car.x c) (Car.y c) (Car.yaw c) (Car.v c) (Car.delta c)
            (Ok (d, tid, cte));
          EvKbm (Car.x c) (Car.y c) (Car.yaw c) (Car.v c) thr d
            (Ok (x', y', yaw', v', d', om'));
          EvPrint (Some cte);
          EvPlotCar x' y' yaw' d;
          EvTarget tx ty;
          EvLabel 0 x' y' v']
    /\ car (after (@animate SpecControl.plain 0 Simulation_init) w)
       = Car.set_pose (Car.set_control c d tid cte) x' y' yaw' v'.
Proof.
  apply (animate_trace SpecControl.plain 0 Simulation_init (origin_world 0)).
  apply origin_frame_ok.
Defined.

(** ** The camera over a run *)

Lemma cameras_app (l1 l2 : list event) :
  cameras (l1 ++ l2) = cameras l1 ++ cameras l2.
Proof.
  induction l1 as [|ev l1 IH]; simpl; [reflexivity|].
  destruct ev; simpl; rewrite IH; reflexivity.
Qed.

Lemma plots_app (l1 l2 : list event) :
  plots (l1 ++ l2) = plots l1 ++ plots l2.
Proof.
  induction l1 as [|ev l1 IH]; simpl; [reflexivity|].
  destruct ev; simpl; rewrite IH; reflexivity.
Qed.

(** A frame that returns centred the camera where the car was and drew the
    car where it is now. *)
Lemma animate_positions (libs : ControlLibs) (frame : nat)
    (sim : Simulation.t) (w : World) :
  outcome (animate frame sim) w = Ok tt ->
  exists new,
    log (after (animate frame sim) w) = log w ++ new
    /\ cameras new = [position (car w)]
    /\ plots new = [position (car (after (animate frame sim) w))].
Proof.
  unfold outcome, after. rewrite animate_eq. cbv zeta.
  destruct (stanley_control _ _ _ _ _ _ _) as [[[d tid] cte]|e];
    [|discriminate].
  destruct (kinematic_model _ _ _ _ _ _ _)
    as [[[[[[x' y'] yaw'] v'] d'] om']|e]; [|discriminate].
  destruct (nth_error (deref (store w) (Path.px (path w))) tid) as [tx|];
    [|discriminate].
  destruct (nth_error (deref (store w) (Path.py (path w))) tid) as [ty|];
    [|discriminate].
  cbn [fst snd car log]. intros _.
  eexists. split.
  - repeat rewrite <- app_assoc. reflexivity.
  - split; reflexivity.
Qed.

Lemma play_positions (libs : ControlLibs) (n : nat) :
  forall (frame : nat) (sim : Simulation.t) (w : World),
    outcome (play frame n sim) w = Ok tt ->
    exists new,
      log (after (play frame n sim) w) = log w ++ new
      /\ position (car w) :: plots new
         = cameras new ++ [position (car (after (play frame n sim) w))]
      /\ List.length (plots new) = n.
Proof.
  induction n as [|n IH]; intros frame sim w Hok.
  - exists []. simpl. rewrite app_nil_r. auto.
  - revert Hok. unfold outcome, after. rewrite play_step.
    destruct (animate frame sim w) as [[[]|e] w1] eqn:Ea;
      [|discriminate].
    intros Hok.
    assert (Hf : outcome (animate frame sim) w = Ok tt)
      by (unfold outcome; rewrite Ea; reflexivity).
    destruct (animate_positions libs frame sim w Hf)
      as (new1 & Hl1 & Hc1 & Hp1).
    unfold after in Hl1, Hp1. rewrite Ea in Hl1, Hp1. cbn [snd] in Hl1, Hp1.
    destruct (IH (S frame) sim w1 Hok) as (new2 & Hl2 & Heq & Hlen).
    unfold after in Hl2, Heq.
    exists (new1 ++ new2). split; [|split].
    + rewrite Hl2, Hl1, app_assoc. reflexivity.
    + rewrite plots_app, cameras_app, Hp1, Hc1. simpl.
      f_equal. exact Heq.
    + rewrite plots_app, length_app, Hp1, Hlen. reflexivity.
Qed.

(** ** Runs on the one-sample path *)

(** On the one-sample path the controller written from the specification
    targets sample 0, whatever the state of the car. *)
Lemma origin_path_control (x y yaw v delta : R) :
  exists d cte,
    @stanley_control SpecControl.plain origin_heap
      (Car.tracker (car (origin_world 0))) x y yaw v delta
    = Ok (d, 0%nat, cte)
    /\ Rabs d <= radians 33.
Proof.
  pose proof (stanley_control_cases
                (fun v delta wheelbase => v / wheelbase * tan delta)
                origin_heap (Car.tracker (car (origin_world 0)))
                x y yaw v delta) as Hs.
  pose proof (stanley_control_bound
                (fun v delta wheelbase => v / wheelbase * tan delta)
                origin_heap (Car.tracker (car (origin_world 0)))
                x y yaw v delta) as Hb.
  change (@stanley_control SpecControl.plain) with
    (SpecControl.stanley_control
       (fun v delta wheelbase => v / wheelbase * tan delta)).
  destruct (SpecControl.stanley_control _ _ _ _ _ _ _ _) as [[[d tid] cte]|e].
  - destruct Hs as (_ & Ht & _). cbv in Ht. injection Ht as <-.
    exists d, cte. split; [reflexivity|].
    apply Hb. simpl. pose proof radians_33_pos. lra.
  - destruct Hs as (_ & Hs). discriminate Hs.
Qed.

(** The model written from the specification, on a command within the
    bound: one explicit Euler step of 1/50 s. *)
Lemma origin_path_model (x y yaw v throttle d : R) :
  Rabs d <= radians 33 ->
  @kinematic_model SpecControl.plain (Car.kbm (car (origin_world 0)))
    x y yaw v throttle d
  = Ok (x + v * cos yaw * (1 / 50),
        y + v * sin yaw * (1 / 50),
        normalise_angle (yaw + v / 2.96 * tan d * (1 / 50)),
        v + (throttle - 0.01 * v - 2.0 * (v * Rabs v)) * (1 / 50),
        d,
        v / 2.96 * tan d).
Proof.
  intros Hd.
  change (@kinematic_model SpecControl.plain) with
    (SpecControl.kinematic_model (fun t => t) 0).
  unfold SpecControl.kinematic_model.
  destruct (Rlt_dec _ _) as [H|H].
  - exfalso. simpl in H. lra.
  - reflexivity.
Qed.

(** A frame on the one-sample path returns, stays on it, and moves the car
    by one Euler step of its velocity along its heading. *)
Lemma origin_path_frame (frame : nat) (sim : Simulation.t) (w : World) :
  on_origin_path w ->
  let c := car w in
  let w' := after (@animate SpecControl.plain frame sim) w in
  outcome (@animate SpecControl.plain frame sim) w = Ok tt
  /\ on_origin_path w'
  /\ position (car w')
     = (Car.x c + Car.v c * cos (Car.yaw c) * (1 / 50),
        Car.y c + Car.v c * sin (Car.yaw c) * (1 / 50))
  /\ Car.v (car w')
     = Car.v c + (drawn w - 0.01 * Car.v c - 2.0 * (Car.v c * Rabs (Car.v c)))
                 * (1 / 50)
  /\ Car.yaw (car w')
     = normalise_angle
         (Car.yaw c + Car.v c / 2.96 * tan (Car.delta (car w')) * (1 / 50)).
Proof.
  intros (Hs & Hp & Ht & Hk). cbv zeta.
  unfold outcome, after, on_origin_path. rewrite animate_eq. cbv zeta.
  rewrite Hs, Hp, Ht, Hk.
  destruct (origin_path_control (Car.x (car w)) (Car.y (car w))
              (Car.yaw (car w)) (Car.v (car w)) (Car.delta (car w)))
    as (d & cte & Hc & Hd).
  rewrite Hc.
  rewrite (origin_path_model _ _ _ _ _ _ Hd).
  change (nth_error (deref origin_heap (Path.px origin_path)) 0)
    with (Some 0).
  change (nth_error (deref origin_heap (Path.py origin_path)) 0)
    with (Some 0).
  cbn [fst snd store path car].
  split; [reflexivity|]. split; [|split; [|split]].
  - split; [reflexivity|]. split; [reflexivity|].
    split; [exact Ht | exact Hk].
  - reflexivity.
  - reflexivity.
  - reflexivity.
Qed.

(** Every run on the one-sample path returns. *)
Lemma origin_path_run (n : nat) :
  forall (frame : nat) (sim : Simulation.t) (w : World),
    on_origin_path w ->
    outcome (@play SpecControl.plain frame n sim) w = Ok tt.
Proof.
  induction n as [|n IH]; intros frame sim w Hw; [reflexivity|].
  destruct (origin_path_frame frame sim w Hw) as (Hok & Hw' & _).
  unfold outcome, after in *. rewrite play_step.
  destruct (@animate SpecControl.plain frame sim w) as [[[]|e] w1];
    [|discriminate Hok].
  apply IH. exact Hw'.
Qed.

Lemma origin_world_on_path (u : R) : on_origin_path (origin_world u).
Proof. repeat split. Qed.

Lemma normalise_angle_0 : normalise_angle 0 = 0.
Proof.
  unfold normalise_angle. pose proof PI_RGT_0 as Hpi.
  replace (Int_part ((PI - 0) / (2 * PI))) with 0%Z.
  - simpl. ring.
  - apply Int_part_spec.
    replace ((PI - 0) / (2 * PI)) with (1 / 2) by (field; lra).
    simpl. lra.
Qed.

(** The car over the first two frames from the origin with no throttle
    above the least: at rest it does not move in the first tick, which
    gives it velocity 3; the second tick takes it 3/50 along the x axis. *)
Lemma origin_two_frames (sim : Simulation.t) :
  let w1 := after (@animate SpecControl.plain 0 sim) (origin_world 0) in
  let w2 := after (@animate SpecControl.plain 1 sim) w1 in
  position (car (origin_world 0)) = (0, 0)
  /\ position (car w1) = (0, 0)
  /\ position (car w2) = (3 / 50, 0).
Proof.
  cbv zeta.
  destruct (origin_path_frame 0 sim (origin_world 0) (origin_world_on_path 0))
    as (_ & Hw1 & Hp1 & Hv1 & Hy1).
  cbv zeta in *.
  set (w1 := after (@animate SpecControl.plain 0 sim) (origin_world 0)) in *.
  destruct (origin_path_frame 1 sim w1 Hw1) as (_ & _ & Hp2 & _).
  cbv zeta in Hp2.
  assert (V0 : Car.v (car (origin_world 0)) = 0) by (simpl; lra).
  assert (E1 : position (car w1) = (0, 0)).
  { rewrite Hp1, V0. simpl. f_equal; lra. }
  assert (V1 : Car.v (car w1) = 3).
  { rewrite Hv1, V0. unfold drawn. simpl. unfold constant_rng.
    rewrite Rabs_R0. lra. }
  assert (Y1 : Car.yaw (car w1) = 0).
  { rewrite Hy1, V0.
    change (Car.yaw (car (origin_world 0))) with 0.
    replace (0 + 0 / 2.96 * tan (Car.delta (car w1)) * (1 / 50)) with 0
      by (unfold Rdiv; ring).
    apply normalise_angle_0. }
  split; [reflexivity|]. split; [exact E1|].
  rewrite Hp2, V1, Y1, cos_0, sin_0.
  injection E1 as -> ->. f_equal; lra.
Qed.

(** The camera positions of a run: the car's position before the first
    frame, then those of the rest of the run. *)
Lemma play_cameras (libs : ControlLibs) (frame n : nat) (sim : Simulation.t)
    (w : World) :
  outcome (animate frame sim) w = Ok tt ->
  cameras (emitted (play frame (S n) sim) w)
  = position (car w)
    :: cameras (emitted (play (S frame) n sim) (after (animate frame sim) w)).
Proof.
  intros Hok.
  destruct (animate_positions libs frame sim w Hok) as (new1 & Hl1 & Hc1 & _).
  destruct (play_log n (S frame) sim (after (animate frame sim) w))
    as (new2 & Hl2 & _).
  rewrite (emitted_of_log _ _ _ Hl2).
  assert (Hl : log (after (play frame (S n) sim) w) = log w ++ (new1 ++ new2)).
  { rewrite app_assoc, <- Hl1, <- Hl2.
    revert Hok. unfold outcome, after. rewrite play_step.
    destruct (animate frame sim w) as [[[]|e] w1]; [|discriminate].
    reflexivity. }
  rewrite (emitted_of_log _ _ _ Hl), cameras_app, Hc1. reflexivity.
Qed.

Lemma play_no_frame (libs : ControlLibs) (frame : nat) (sim : Simulation.t)
    (w : World) :
  emitted (play frame 0 sim) w = [].
Proof. apply emitted_of_log. symmetry. apply app_nil_r. Qed.

Lemma origin_run_cameras :
  cameras (emitted (@play SpecControl.plain 0 3 Simulation_init)
             (origin_world 0))
  = [(0, 0); (0, 0); (3 / 50, 0)].
Proof.
  destruct (origin_two_frames Simulation_init) as (E0 & E1 & E2).
  cbv zeta in E1, E2.
  pose proof (origin_world_on_path 0) as H0.
  destruct (origin_path_frame 0 Simulation_init _ H0) as (Ok0 & H1 & _).
  cbv zeta in Ok0, H1.
  remember (origin_world 0) as w0 eqn:D0.
  remember (after (@animate SpecControl.plain 0 Simulation_init) w0)
    as w1 eqn:D1.
  destruct (origin_path_frame 1 Simulation_init w1 H1) as (Ok1 & H2 & _).
  cbv zeta in Ok1, H2.
  remember (after (@animate SpecControl.plain 1 Simulation_init) w1)
    as w2 eqn:D2.
  destruct (origin_path_frame 2 Simulation_init w2 H2) as (Ok2 & _).
  rewrite (play_cameras SpecControl.plain 0 2 Simulation_init w0 Ok0).
  rewrite <- D1.
  rewrite (play_cameras SpecControl.plain 1 1 Simulation_init w1 Ok1).
  rewrite <- D2.
  rewrite (play_cameras SpecControl.plain 2 0 Simulation_init w2 Ok2).
  rewrite play_no_frame, E0, E1, E2. reflexivity.
Qed.

(** X5: over a run of frames that returns, the camera is one frame behind
    the car: the first frame centres it on the car's starting position,
    every later frame on the position the frame before drew the car at;
    the last position drawn is where the car is when the run ends. *)
Theorem camera_one_frame_behind (libs : ControlLibs) (frame n : nat)
    (sim : Simulation.t) (w : World) :
  outcome (play frame n sim) w = Ok tt ->
  let seen := emitted (play frame n sim) w in
  position (car w) :: plots seen
  = cameras seen ++ [position (car (after (play frame n sim) w))]
  /\ List.length (plots seen) = n
  /\ List.length (cameras seen) = n.
Proof.
  intros Hok. cbv zeta.
  destruct (play_positions libs n frame sim w Hok) as (new & Hl & Heq & Hlen).
  rewrite (emitted_of_log _ _ _ Hl).
  split; [exact Heq|]. split; [exact Hlen|].
  apply (f_equal (@List.length (R * R))) in Heq.
  rewrite length_app in Heq. simpl in Heq. lia.
Qed.

(** X5 at work: three frames from rest on the one-sample path, each
    drawing the least throttle.  The first tick moves nothing and leaves
    velocity 3, the second takes the car 3/50 along the x axis: the camera
    is on the origin for two frames and on the new position in the third,
    one frame after the car was drawn there. *)
Lemma camera_one_frame_behind_witness :
  let run := @play SpecControl.plain 0 3 Simulation_init in
  let seen := emitted run (origin_world 0) in
  (position (car (origin_world 0)) :: plots seen
   = cameras seen ++ [position (car (after run (origin_world 0)))]
   /\ List.length (plots seen) = 3%nat
   /\ List.length (cameras seen) = 3%nat)
  /\ cameras seen = [(0, 0); (0, 0); (3 / 50, 0)].
Proof.
  split.
  - apply (camera_one_frame_behind SpecControl.plain 0 3 Simulation_init
             (origin_world 0)).
    apply origin_path_run, origin_world_on_path.
  - apply origin_run_cameras.
Defined.

(** ** The random generator over a run *)

Lemma animate_rng (libs : ControlLibs) (frame : nat) (sim : Simulation.t)
    (w : World) :
  rng (after (animate frame sim) w) = (fun n => rng w (S n)).
Proof.
  destruct (animate_state frame sim w) as (_ & Hr & _).
  rewrite Hr. apply drive_rng.
Qed.

Lemma play_throttle_range (libs : ControlLibs) (n : nat) :
  forall (frame : nat) (sim : Simulation.t) (w : World),
    (forall i : nat, 0 <= rng w i < 1) ->
    exists new,
      log (after (play frame n sim) w) = log w ++ new
      /\ Forall (fun t => 150 <= t <= 200) (throttles new).
Proof.
  induction n as [|n IH]; intros frame sim w Hr.
  - exists []. simpl. rewrite app_nil_r. split; [reflexivity | constructor].
  - destruct (animate_log frame sim w) as (new1 & Hl1 & _ & _ & Ht1).
    pose proof (animate_rng libs frame sim w) as Hrng.
    assert (H1 : Forall (fun t => 150 <= t <= 200) (throttles new1)).
    { rewrite Ht1, tick_throttles.
      destruct (is_ok _); constructor; [|constructor].
      unfold drawn. specialize (Hr O). lra. }
    unfold after in *. rewrite play_step.
    destruct (animate frame sim w) as [[[]|e] w1]; cbn [fst snd] in *.
    + destruct (IH (S frame) sim w1) as (new2 & Hl2 & H2).
      { intros i. rewrite Hrng. apply Hr. }
      exists (new1 ++ new2). rewrite Hl2, Hl1, app_assoc.
      split; [reflexivity|].
      rewrite throttles_app. apply Forall_app. split; assumption.
    + exists new1. split; assumption.
Qed.

(** X6: when the random generator returns values from 0 (included) to 1
    (excluded), as [random()] does, every throttle the model receives over
    a run of frames is from 150 to 200, both included: the sum
    [a + (b - a) * random()] never leaves the interval, and in floating
    point it can round to the upper end. *)
Theorem throttle_between_150_and_200 (libs : ControlLibs) (frame n : nat)
    (sim : Simulation.t) (w : World) :
  (forall i : nat, 0 <= rng w i < 1) ->
  Forall (fun t => 150 <= t <= 200)
         (throttles (emitted (play frame n sim) w)).
Proof.
  intros Hr.
  destruct (play_throttle_range libs n frame sim w Hr) as (new & Hl & H).
  rewrite (emitted_of_log _ _ _ Hl). exact H.
Qed.

(** X6 at work: three frames on the one-sample path with a generator that
    returns one half. *)
Lemma throttle_between_150_and_200_witness :
  Forall (fun t => 150 <= t <= 200)
         (throttles (emitted (@play SpecControl.plain 0 3 Simulation_init)
                       (origin_world (1 / 2)))).
Proof.
  apply (throttle_between_150_and_200 SpecControl.plain 0 3 Simulation_init
           (origin_world (1 / 2))).
  intros i. simpl. unfold constant_rng. lra.
Defined.

Lemma play_draws (libs : ControlLibs) (n : nat) :
  forall (frame : nat) (sim : Simulation.t) (w : World),
    exists new,
      log (after (play frame n sim) w) = log w ++ new
      /\ (forall i : nat,
             rng (after (play frame n sim) w) i
             = rng w (List.length (draws new) + i)%nat)
      /\ (List.length (draws new) <= n)%nat
      /\ (outcome (play frame n sim) w = Ok tt ->
          List.length (draws new) = n)
      /\ (n <> 0%nat -> draws new <> []).
Proof.
  induction n as [|n IH]; intros frame sim w.
  - exists []. simpl. rewrite app_nil_r. repeat split; auto.
  - destruct (animate_log frame sim w) as (new1 & Hl1 & _ & Hd1 & _).
    pose proof (animate_rng libs frame sim w) as Hrng.
    unfold after, outcome in *. rewrite play_step.
    destruct (animate frame sim w) as [[[]|e] w1]; cbn [fst snd] in *.
    + destruct (IH (S frame) sim w1) as (new2 & Hl2 & Hr2 & Hle & Hok & _).
      exists (new1 ++ new2). rewrite Hl2, Hl1, app_assoc, draws_app, Hd1.
      split; [reflexivity|]. simpl. repeat split.
      * intros i. rewrite Hr2, Hrng. reflexivity.
      * lia.
      * intros H. rewrite (Hok H). reflexivity.
      * discriminate.
    + exists new1. rewrite Hd1. split; [assumption|]. simpl.
      repeat split.
      * intros i. rewrite Hrng. reflexivity.
      * lia.
      * discriminate.
      * discriminate.
Qed.

(** X7: every frame that starts takes exactly one value from the random
    generator, whether its tick returns or raises: after a run the
    generator is as many values further as throttles were drawn, at most
    one per frame, and exactly one per frame when the run returns. *)
Theorem one_draw_per_frame (libs : ControlLibs) (frame n : nat)
    (sim : Simulation.t) (w : World) :
  let drawn_values := draws (emitted (play frame n sim) w) in
  (forall i : nat,
      rng (after (play frame n sim) w) i
      = rng w (List.length drawn_values + i)%nat)
  /\ (List.length drawn_values <= n)%nat
  /\ (outcome (play frame n sim) w = Ok tt -> List.length drawn_values = n)
  /\ (n <> 0%nat -> drawn_values <> []).
Proof.
  cbv zeta.
  destruct (play_draws libs n frame sim w) as (new & Hl & H).
  rewrite (emitted_of_log _ _ _ Hl). exact H.
Qed.

(** ** What [main] sets up *)

Lemma nth_error_head_none {A : Type} (l : list A) :
  nth_error l 0 = None -> l = [].
Proof. destruct l; [reflexivity | discriminate]. Qed.

(** X8: what the first three statements of [main] build, from the rows of
    the table.  When they return, the car stands on the first sample of
    the path, with the first sample's heading, at rest, steering straight,
    without target yet, with the time step of the simulation; nothing was
    drawn from the random generator and nothing traced.  When they raise,
    it is what the reading of the rows in [Path.__init__] raised, or
    [IndexError] from indexing one of the three lists of the path, which
    is empty. *)
Theorem setup_car_on_first_sample (plib : PathLib) (rows : list (list cell))
    (rng0 : nat -> R) :
  match setup rows rng0 with
  | Ok w =>
      nth_error (deref (store w) (Path.px (path w))) 0 = Some (Car.x (car w))
      /\ nth_error (deref (store w) (Path.py (path w))) 0
         = Some (Car.y (car w))
      /\ nth_error (deref (store w) (Path.pyaw (path w))) 0
         = Some (Car.yaw (car w))
      /\ (Car.v (car w), Car.delta (car w)) = (0.0, 0.0)
      /\ (Car.target_id (car w), Car.crosstrack_error (car w)) = (None, None)
      /\ Car.dt (car w) = Simulation.dt Simulation_init
      /\ rng w = rng0
      /\ log w = []
  | Raise e =>
      Path_init rows [] = Raise e
      \/ (e = IndexError
          /\ exists p h,
               Path_init rows [] = Ok (p, h)
               /\ (deref h (Path.px p) = []
                   \/ deref h (Path.py p) = []
                   \/ deref h (Path.pyaw p) = []))
  end.
Proof.
  unfold setup.
  destruct (Path_init rows []) as [[p h]|e]; [|left; reflexivity].
  destruct (nth_error (deref h (Path.px p)) 0) as [x0|] eqn:Hx.
  - destruct (nth_error (deref h (Path.py p)) 0) as [y0|] eqn:Hy.
    + destruct (nth_error (deref h (Path.pyaw p)) 0) as [yaw0|] eqn:Hyaw.
      * cbn [store car path rng log]. repeat split; assumption.
      * right. split; [reflexivity|]. exists p, h.
        split; [reflexivity|]. right. right.
        apply nth_error_head_none, Hyaw.
    + right. split; [reflexivity|]. exists p, h.
      split; [reflexivity|]. right. left. apply nth_error_head_none, Hy.
  - right. split; [reflexivity|]. exists p, h.
    split; [reflexivity|]. left. apply nth_error_head_none, Hx.
Qed.

(** ** Reading the waypoint table *)

Lemma floats_numbers (xs : list R) : floats (map Number xs) = Ok xs.
Proof.
  induction xs as [|x xs IH]; simpl; [reflexivity|]. rewrite IH. reflexivity.
Qed.

Lemma floats_ok (cs : list cell) (xs : list R) :
  floats cs = Ok xs -> cs = map Number xs.
Proof.
  revert xs. induction cs as [|c cs IH]; intros xs H; simpl in H.
  - injection H as <-. reflexivity.
  - destruct c as [r|s]; simpl in H; [|discriminate].
    destruct (floats cs) as [rs|e]; [|discriminate].
    injection H as <-. simpl. f_equal. apply IH. reflexivity.
Qed.

Lemma floats_raise (cs : list cell) (e : error) :
  floats cs = Raise e -> e = ValueError.
Proof.
  induction cs as [|c cs IH]; intros H; simpl in H; [discriminate|].
  destruct c as [r|s]; simpl in H.
  - destruct (floats cs) as [rs|e']; [discriminate|].
    injection H as <-. apply IH. reflexivity.
  - injection H as <-. reflexivity.
Qed.

Lemma float_columns_raise (cols : list (list cell)) (e : error) :
  float_columns cols = Raise e -> e = ValueError.
Proof.
  induction cols as [|c cols IH]; intros H; simpl in H; [discriminate|].
  destruct (floats c) as [rs|e'] eqn:Hc.
  - destruct (float_columns cols) as [rss|e'']; [discriminate|].
    injection H as <-. apply IH. reflexivity.
  - injection H as <-. apply (floats_raise c). exact Hc.
Qed.

Lemma float_columns_length (cols : list (list cell)) (xss : list (list R)) :
  float_columns cols = Ok xss -> List.length xss = List.length cols.
Proof.
  revert xss. induction cols as [|c cols IH]; intros xss H; simpl in H.
  - injection H as <-. reflexivity.
  - destruct (floats c) as [rs|e]; [|discriminate].
    destruct (float_columns cols) as [rss|e]; [|discriminate].
    injection H as <-. simpl. f_equal. apply IH. reflexivity.
Qed.

(** [Path.__init__] in one step: the conversion of the columns, the
    unpacking, the generator, the three lists kept. *)
Lemma Path_init_eq (plib : PathLib) (rows : list (list cell)) (h : heap) :
  Path_init rows h
  = match float_columns (zip_star (tl rows)) with
    | Raise e => Raise e
    | Ok [x; y] => store_path h (generate_cubic_spline x y 0.05)
    | Ok _ => Raise ValueError
    end.
Proof.
  unfold Path_init, store_path.
  destruct (float_columns (zip_star (tl rows))) as [cols|e]; [|reflexivity].
  destruct cols as [|x [|y [|z cols]]]; try reflexivity.
  destruct (generate_cubic_spline x y 0.05) as [[[[px py] pyaw] c]|e];
    [|reflexivity].
  unfold alloc. rewrite !length_app. simpl.
  rewrite <- !app_assoc. simpl.
  repeat f_equal; lia.
Qed.

(** More than two columns never unpack into x and y. *)
Lemma Path_init_many_columns (plib : PathLib) (rows : list (list cell))
    (h : heap) (c0 c1 c2 : list cell) (cols : list (list cell)) :
  zip_star (tl rows) = c0 :: c1 :: c2 :: cols ->
  Path_init rows h = Raise ValueError.
Proof.
  intros Hz. rewrite Path_init_eq, Hz.
  destruct (float_columns (c0 :: c1 :: c2 :: cols)) as [xss|e] eqn:Hf.
  - apply float_columns_length in Hf. simpl in Hf.
    destruct xss as [|x [|y [|z xss]]]; simpl in Hf; try lia. reflexivity.
  - apply float_columns_raise in Hf. rewrite Hf. reflexivity.
Qed.

(** The columns of a table of rows that each start with two numbers. *)
Lemma heads_firsts (pts : list (R * R * list cell)) :
  heads (map row_with pts)
  = Some (map Number (map (fun p => fst (fst p)) pts)).
Proof.
  induction pts as [|p pts IH]; simpl; [reflexivity|].
  simpl in IH. rewrite IH. reflexivity.
Qed.

Lemma heads_seconds (pts : list (R * R * list cell)) :
  heads (map (@tl cell) (map row_with pts))
  = Some (map Number (map (fun p => snd (fst p)) pts)).
Proof.
  induction pts as [|p pts IH]; simpl; [reflexivity|].
  simpl in IH. rewrite IH. reflexivity.
Qed.

Lemma tails_extras (pts : list (R * R * list cell)) :
  map (@tl cell) (map (@tl cell) (map row_with pts)) = map snd pts.
Proof.
  induction pts as [|p pts IH]; simpl; [reflexivity|].
  rewrite IH. reflexivity.
Qed.

Lemma heads_extras (pts : list (R * R * list cell)) :
  match heads (map snd pts) with
  | Some _ => forallb has_extra pts = true
  | None => forallb has_extra pts = false
  end.
Proof.
  induction pts as [|[[a b] ex] pts IH]; [reflexivity|].
  destruct ex as [|c ex]; [reflexivity|].
  cbn [map snd heads forallb has_extra andb].
  destruct (heads (map snd pts)); exact IH.
Qed.

Lemma zip_columns_rows (k : nat) (pts : list (R * R * list cell)) :
  zip_columns (S (S k)) (map row_with pts)
  = map Number (map (fun p => fst (fst p)) pts)
    :: map Number (map (fun p => snd (fst p)) pts)
    :: zip_columns k (map snd pts).
Proof.
  cbn [zip_columns]. rewrite heads_firsts, heads_seconds, tails_extras.
  reflexivity.
Qed.

Lemma Path_init_rows (plib : PathLib) (header : list cell)
    (pts : list (R * R * list cell)) (h : heap) :
  Path_init (header :: map row_with pts) h
  = if forallb has_extra pts then Raise ValueError
    else store_path h
           (generate_cubic_spline (map (fun p => fst (fst p)) pts)
              (map (fun p => snd (fst p)) pts) 0.05).
Proof.
  destruct pts as [|p0 pts]; [reflexivity|].
  pose proof (heads_extras (p0 :: pts)) as He.
  destruct (forallb has_extra (p0 :: pts)) eqn:Hall.
  - (* every row has a third cell: at least three columns *)
    destruct (heads (map snd (p0 :: pts))) as [hs|] eqn:Hh;
      [|discriminate He].
    assert (Hz : exists k, List.length (snd p0) = S k).
    { simpl in Hall. apply andb_prop in Hall. destruct Hall as (H0 & _).
      unfold has_extra in H0. destruct (snd p0); [discriminate|].
      eexists. reflexivity. }
    destruct Hz as (k & Hk).
    apply (Path_init_many_columns plib _ h
             (map Number (map (fun p => fst (fst p)) (p0 :: pts)))
             (map Number (map (fun p => snd (fst p)) (p0 :: pts)))
             hs (zip_columns k (map (@tl cell) (map snd (p0 :: pts))))).
    cbn [tl]. unfold zip_star.
    change (map row_with (p0 :: pts))
      with (row_with p0 :: map row_with pts) at 1.
    cbn [row_with List.length]. rewrite Hk.
    change (Number (fst (fst p0)) :: Number (snd (fst p0)) :: snd p0)
      with (row_with p0).
    change (row_with p0 :: map row_with pts)
      with (map row_with (p0 :: pts)).
    rewrite zip_columns_rows. cbn [zip_columns]. rewrite Hh. reflexivity.
  - (* some row has two cells: exactly two columns *)
    destruct (heads (map snd (p0 :: pts))) as [hs|] eqn:Hh;
      [discriminate He|].
    rewrite Path_init_eq. cbn [tl]. unfold zip_star.
    change (map row_with (p0 :: pts))
      with (row_with p0 :: map row_with pts) at 1.
    cbn [row_with List.length].
    change (Number (fst (fst p0)) :: Number (snd (fst p0)) :: snd p0)
      with (row_with p0).
    change (row_with p0 :: map row_with pts)
      with (map row_with (p0 :: pts)).
    rewrite zip_columns_rows.
    assert (Hz : zip_columns (List.length (snd p0)) (map snd (p0 :: pts))
                 = []).
    { destruct (List.length (snd p0)); [reflexivity|].
      cbn [zip_columns]. rewrite Hh. reflexivity. }
    rewrite Hz. cbn [float_columns]. rewrite !floats_numbers. reflexivity.
Qed.

(** X9: on a table of a header and rows of two numbers each,
    [Path.__init__] skips the header and hands the generator the first
    cells as x and the second cells as y, in row order, with the sampling
    interval 0.05, and keeps the first three lists it returns; without any
    data row it raises [ValueError]. *)
Theorem Path_init_columns_in_row_order (plib : PathLib) (header : list cell)
    (pts : list (R * R)) (h : heap) :
  Path_init (header :: map row_of pts) h
  = match pts with
    | [] => Raise ValueError
    | _ :: _ =>
        store_path h
          (generate_cubic_spline (map fst pts) (map snd pts) 0.05)
    end.
Proof.
  replace (map row_of pts)
    with (map row_with (map (fun p => (p, @nil cell)) pts))
    by (rewrite map_map; reflexivity).
  rewrite Path_init_rows, !map_map. cbn [fst snd].
  destruct pts as [|p pts]; [reflexivity|].
  cbn [map forallb has_extra snd andb].
  rewrite (map_ext (fun x : R * R => fst x) fst) by reflexivity.
  rewrite (map_ext (fun x : R * R => snd x) snd) by reflexivity.
  reflexivity.
Qed.

(** X10: [zip] stops at the shortest row, so when every data row starts
    with two numbers and at least one has nothing more, the further cells
    of the other rows are dropped without notice, whatever they hold; when
    every data row has a third cell, or there is no data row,
    [Path.__init__] raises [ValueError]. *)
Theorem Path_init_drops_further_cells (plib : PathLib) (header : list cell)
    (pts : list (R * R * list cell)) (h : heap) :
  Path_init (header :: map row_with pts) h
  = if forallb has_extra pts then Raise ValueError
    else Path_init (header :: map row_of (map fst pts)) h.
Proof.
  rewrite Path_init_rows.
  destruct (forallb has_extra pts) eqn:Hall; [reflexivity|].
  replace (map row_of (map fst pts))
    with (map row_with (map (fun p => (fst p, @nil cell)) pts))
    by (rewrite !map_map; reflexivity).
  rewrite Path_init_rows, !map_map. cbn [fst snd].
  destruct pts as [|p pts]; [discriminate Hall|]. reflexivity.
Qed.

Lemma rows_of_columns (data : list (list cell)) :
  forall (c0 c1 : list cell) (x y : list R),
    heads data = Some c0 ->
    heads (map (@tl cell) data) = Some c1 ->
    floats c0 = Ok x ->
    floats c1 = Ok y ->
    exists pts : list (R * R * list cell),
      data = map row_with pts
      /\ map (fun p => fst (fst p)) pts = x
      /\ map (fun p => snd (fst p)) pts = y.
Proof.
  induction data as [|r data IH]; intros c0 c1 x y H0 H1 Hx Hy.
  - simpl in H0, H1. injection H0 as <-. injection H1 as <-.
    simpl in Hx, Hy. injection Hx as <-. injection Hy as <-.
    exists []. auto.
  - destruct r as [|a t]; [discriminate H0|].
    simpl in H0. destruct (heads data) as [hs0|] eqn:E0; [|discriminate].
    injection H0 as <-.
    destruct t as [|b t']; [discriminate H1|].
    simpl in H1.
    destruct (heads (map (@tl cell) data)) as [hs1|] eqn:E1; [|discriminate].
    injection H1 as <-.
    simpl in Hx. destruct a as [xa|sa]; simpl in Hx; [|discriminate].
    destruct (floats hs0) as [xs|e] eqn:Fx; [|discriminate].
    injection Hx as <-.
    simpl in Hy. destruct b as [yb|sb]; simpl in Hy; [|discriminate].
    destruct (floats hs1) as [ys|e] eqn:Fy; [|discriminate].
    injection Hy as <-.
    destruct (IH hs0 hs1 xs ys eq_refl eq_refl Fx Fy) as (pts & Hd & Hpx & Hpy).
    exists ((xa, yb, t') :: pts). simpl. rewrite Hd, Hpx, Hpy. auto.
Qed.

Lemma zip_star_two_columns (data : list (list cell)) (c0 c1 : list cell) :
  zip_star data = [c0; c1] ->
  heads data = Some c0
  /\ heads (map (@tl cell) data) = Some c1
  /\ heads (map (@tl cell) (map (@tl cell) data)) = None.
Proof.
  unfold zip_star. destruct data as [|r0 data]; [discriminate|].
  destruct r0 as [|a [|b t]].
  - discriminate.
  - cbn [List.length zip_columns].
    destruct (heads ([a] :: data)); discriminate.
  - cbn [List.length zip_columns].
    destruct (heads ((a :: b :: t) :: data)) as [hs0|]; [|discriminate].
    destruct (heads (map (@tl cell) ((a :: b :: t) :: data))) as [hs1|];
      [|discriminate].
    intros H. injection H as <- <- Hrest.
    split; [reflexivity|]. split; [reflexivity|].
    destruct t as [|c t]; [reflexivity|].
    cbn [List.length zip_columns] in Hrest. cbn [map tl].
    destruct (heads ((c :: t) :: map (@tl cell) (map (@tl cell) data)));
      [discriminate Hrest | reflexivity].
Qed.

(** X11: from the rows [csv.reader] returned, the last two statements of
    [Path.__init__] return only on a table with at least one data row, in
    which every data row starts with two numbers and at least one has
    nothing more, and then with the lists the generator made of the two
    columns; on given rows these statements raise nothing but [ValueError]
    and what the generator raises. *)
Theorem Path_init_returns_only_on_two_numeric_columns (plib : PathLib)
    (rows : list (list cell)) (h : heap) :
  match Path_init rows h with
  | Ok r =>
      exists pts : list (R * R * list cell),
        tl rows = map row_with pts
        /\ pts <> []
        /\ forallb has_extra pts = false
        /\ store_path h
             (generate_cubic_spline (map (fun p => fst (fst p)) pts)
                (map (fun p => snd (fst p)) pts) 0.05)
           = Ok r
  | Raise e =>
      e = ValueError
      \/ exists x y : list R, generate_cubic_spline x y 0.05 = Raise e
  end.
Proof.
  rewrite Path_init_eq.
  destruct (float_columns (zip_star (tl rows))) as [cols|e] eqn:Hf.
  - destruct cols as [|x [|y [|z cols]]]; try (left; reflexivity).
    destruct (store_path h (generate_cubic_spline x y 0.05)) as [r|e] eqn:Hs.
    + assert (Hz : exists c0 c1, zip_star (tl rows) = [c0; c1]
                                 /\ floats c0 = Ok x /\ floats c1 = Ok y).
      { destruct (zip_star (tl rows)) as [|c0 [|c1 [|c2 cs]]];
          simpl in Hf; try discriminate Hf.
        - destruct (floats c0); discriminate Hf.
        - destruct (floats c0) as [x'|] eqn:F0; [|discriminate Hf].
          destruct (floats c1) as [y'|] eqn:F1; [|discriminate Hf].
          injection Hf as <- <-. exists c0, c1. auto.
        - destruct (floats c0) as [x'|]; [|discriminate Hf].
          destruct (floats c1) as [y'|]; [|discriminate Hf].
          destruct (floats c2) as [z'|]; [|discriminate Hf].
          destruct (float_columns cs); discriminate Hf. }
      destruct Hz as (c0 & c1 & Hz & Hx & Hy).
      destruct (zip_star_two_columns _ _ _ Hz) as (H0 & H1 & H2).
      destruct (rows_of_columns _ _ _ _ _ H0 H1 Hx Hy)
        as (pts & Hd & Hpx & Hpy).
      exists pts. split; [exact Hd|].
      rewrite Hd, tails_extras in H2.
      pose proof (heads_extras pts) as He. rewrite H2 in He.
      split; [|split; [exact He|]].
      * intros ->. discriminate He.
      * rewrite Hpx, Hpy. exact Hs.
    + right. exists x, y. unfold store_path in Hs.
      destruct (generate_cubic_spline x y 0.05) as [[[[px py] pyaw] c]|e'];
        [discriminate|]. injection Hs as ->. reflexivity.
  - left. apply (float_columns_raise _ _ Hf).
Qed.

(** ** The car's own parameter fields *)

Section Retuned.

Context {libs : ControlLibs}.
Variables wheelbase max_steer dt c_r c_a k ksoft kyaw ksteer : R.

Local Notation "'retune'' w" :=
  (retune w wheelbase max_steer dt c_r c_a k ksoft kyaw ksteer)
  (at level 10, w at level 9).

Lemma animate_retuned (frame : nat) (sim : Simulation.t) (w : World) :
  animate frame sim (retune' w)
  = (fst (animate frame sim w), retune' (snd (animate frame sim w))).
Proof.
  rewrite !animate_eq. cbv zeta. unfold retune, drawn.
  cbn [store car path rng log].
  change (Car.tracker (retuned (car w) wheelbase max_steer dt c_r c_a k ksoft
                         kyaw ksteer)) with (Car.tracker (car w)).
  change (Car.kbm (retuned (car w) wheelbase max_steer dt c_r c_a k ksoft
                     kyaw ksteer)) with (Car.kbm (car w)).
  cbn [retuned Car.x Car.y Car.yaw Car.v Car.delta].
  destruct (stanley_control _ _ _ _ _ _ _) as [[[d tid] cte]|e];
    [|reflexivity].
  destruct (kinematic_model _ _ _ _ _ _ _)
    as [[[[[[x' y'] yaw'] v'] d'] om']|e]; [|reflexivity].
  destruct (nth_error (deref (store w) (Path.px (path w))) tid);
    [|reflexivity].
  destruct (nth_error (deref (store w) (Path.py (path w))) tid);
    reflexivity.
Qed.

Lemma play_retuned (n : nat) :
  forall (frame : nat) (sim : Simulation.t) (w : World),
    play frame n sim (retune' w)
    = (fst (play frame n sim w), retune' (snd (play frame n sim w))).
Proof.
  induction n as [|n IH]; intros frame sim w; [reflexivity|].
  rewrite !play_step, animate_retuned.
  destruct (animate frame sim w) as [[[]|e] w1]; cbn [fst snd].
  - apply IH.
  - reflexivity.
Qed.

End Retuned.


(** ** The copies the controller and the model hold *)

Lemma in_sync_constants (c c' : Car.t) :
  constants c' = constants c -> in_sync c -> in_sync c'.
Proof.
  unfold constants, in_sync. intros H (Ht & Hk).
  injection H as E1 E2 E3 E4 E5 E6 E7 E8 E9 E10 E11 E12 E13 E14 E15 E16 E17
    E18 E19 E20 E21 E22.
  split; congruence.
Qed.

(** X13: the controller and the model of the car [Car.__init__] builds
    hold the very values of the car's own parameter fields and the car's
    references to the path lists, and after any number of frames they
    still do: no frame assigns to one without the other. *)
Theorem controller_and_model_stay_in_sync (libs : ControlLibs)
    (init_x init_y init_yaw : R) (px py pyaw : ref) (dt : R)
    (h : heap) (p : Path.t) (rng0 : nat -> R) (l : list event)
    (frame n : nat) (sim : Simulation.t) :
  let c0 := Car_init init_x init_y init_yaw px py pyaw dt in
  in_sync c0
  /\ in_sync (car (after (play frame n sim) (mkWorld h c0 p rng0 l)))
  /\ (forall w : World,
         in_sync (car w) -> in_sync (car (after (play frame n sim) w))).
Proof.
  cbv zeta.
  assert (H0 : in_sync (Car_init init_x init_y init_yaw px py pyaw dt))
    by (split; reflexivity).
  assert (Hrun : forall w : World,
             in_sync (car w) -> in_sync (car (after (play frame n sim) w))).
  { intros w Hw. destruct (play_frame n frame sim w) as (_ & _ & Hk).
    apply (in_sync_constants (car w)); assumption. }
  split; [exact H0|]. split; [|exact Hrun].
  apply Hrun. exact H0.
Qed.
